(** * CarlAdam: the arc model of [carladam/petrinet/arc.py]

    A shallow embedding of the arc classes ([ArcPT], [CompletedArcPT],
    [ArcTP], [CompletedArcTP]), of the builder operators [>>] and [<<], of
    the fragments [Annotate] and [TransformEach], and of the shared
    [__hash__] and [__lt__] implementations, followed by the properties the
    specification states about them.

    Arc objects and the closures that [TransformEach.apply_to_arc] creates
    live in an object store: an operator reads the arc it is applied to from
    the store and allocates its result there.  User callables run in a state
    of their own and may raise. *)

From Stdlib Require Import ZArith.
From stdpp Require Import base option list gmap sets strings.

Local Open Scope string_scope.
Local Open Scope Z_scope.
Local Open Scope list_scope.

(** ** Exceptions and the state-and-error monad *)

Inductive Exc : Type :=
  | TypeError
  | AttributeError
  | PetriNetArcIncomplete (msg : string)
  | UserError (code : nat).

Global Instance Exc_eq_dec : EqDecision Exc.
Proof. solve_decision. Defined.

Module PyMonad.

(** A call that returns a value or raises. *)
Abbreviation Result := (sum Exc).

Global Instance Result_ret : MRet Result := λ A x, inr x.

Global Instance Result_bind : MBind Result := λ A B k r,
  match r with
  | inr x => k x
  | inl e => inl e
  end.

(** A computation over a state [S] that returns a value or raises; the
    state reached at a raise is kept, as in Python. *)
Definition M (S A : Type) : Type := S → Result A * S.

Global Instance M_ret {S} : MRet (M S) := λ A x s, (inr x, s).

Global Instance M_bind {S} : MBind (M S) := λ A B k m s,
  match m s with
  | (inr x, s') => k x s'
  | (inl e, s') => (inl e, s')
  end.

Definition raise {S A} (e : Exc) : M S A := λ s, (inl e, s).

Definition lift {S A} (r : Result A) : M S A := λ s, (r, s).

End PyMonad.
Import PyMonad.

(** ** Collaborators of the module *)

(** Modelled from the spec: [color.py] is not among the sources.  A color is
    an identity tag; [Abstract] is the built-in one, every other color is
    made from a name. *)
Inductive Color : Type :=
  | Abstract
  | Named (name : string).

Global Instance Color_eq_dec : EqDecision Color.
Proof. solve_decision. Defined.

Global Instance Color_countable : Countable Color.
Proof.
  refine (inj_countable'
            (λ c, match c with Abstract => None | Named n => Some n end)
            (λ o, match o with None => Abstract | Some n => Named n end) _).
  by intros [].
Defined.

(** A [ColorSet] maps colors to counts. *)
Abbreviation ColorSet := (gmap Color Z).

(** [pyrsistent.pmap]: the persistent map with the items of its argument. *)
Definition pmap (m : ColorSet) : ColorSet := m.

(** Modelled from the spec: [place.py] is not among the sources.  A place is
    a named node whose identity is its object reference; the record holds
    that identity and the name the object carries. *)
Record Place : Type := mkPlace { place_id : nat; place_name : string }.

(** Modelled from the spec: [transition.py] is not among the sources.  A
    transition is a named node whose identity is its object reference. *)
Record Transition : Type :=
  mkTransition { transition_id : nat; transition_name : string }.

Global Instance Place_eq_dec : EqDecision Place.
Proof. solve_decision. Defined.

Global Instance Transition_eq_dec : EqDecision Transition.
Proof. solve_decision. Defined.

(** Modelled from the spec: [token.py] is not among the sources.  Tokens are
    compared and hashed by identity, so a token is its object identity; what
    it carries belongs to the state user callables run in. *)
Record Token : Type := mkToken { token_id : nat }.

Global Instance Token_eq_dec : EqDecision Token.
Proof. solve_decision. Defined.

Global Instance Token_countable : Countable Token.
Proof. by refine (inj_countable' token_id mkToken _); intros []. Defined.

(** A [TokenSet] is a [frozenset] of tokens. *)
Abbreviation TokenSet := (gset Token).

(** Locations of the object store. *)
Abbreviation Ref := nat.

(** ** The classes of [arc.py] *)

Section ArcModel.

(** The state user callables run in. *)
Context {St : Type}.

(** A user function from a token to a token: the function object's identity
    and what a call does. *)
Record TokenFn : Type :=
  mkTokenFn { fn_id : nat; fn_call : Token → M St Token }.

(** [class Annotate]: decorates an arc with descriptive text.  The module
    only reads the fields of a fragment, so a fragment is a value here. *)
Record Annotate : Type := mkAnnotate { text : string }.

(** [class TransformEach]: sets a per-token function on an arc. *)
Record TransformEach : Type := mkTransformEach { fn : TokenFn }.

(** What an arc's [transform] field can hold: a callable the user passed to
    the constructor, or the inner function [transform] that
    [TransformEach.apply_to_arc] defines, which is allocated at [loc] and
    closed over [self]. *)
Inductive Callable : Type :=
  | UserCallable (id : nat) (call : TokenSet → M St TokenSet)
  | TransformClosure (loc : Ref) (self : TransformEach).

(** The values the operators of the module are applied to. *)
Inductive PyVal : Type :=
  | VNone
  | VPlace (p : Place)
  | VTransition (t : Transition)
  | VAnnotate (a : Annotate)
  | VTransformEach (f : TransformEach)
  | VColor (c : Color).

Inductive PyType : Type := TPlace | TTransition.

Definition isinstance (v : PyVal) (t : PyType) : bool :=
  match v, t with
  | VPlace _, TPlace => true
  | VTransition _, TTransition => true
  | _, _ => false
  end.

Definition is_None (v : PyVal) : bool :=
  match v with VNone => true | _ => false end.

(** [attr.validators.instance_of] and [attr.validators.optional]. *)
Definition instance_of (t : PyType) (v : PyVal) : Result () :=
  if isinstance v t then inr () else inl TypeError.

Definition optional (validator : PyVal → Result ()) (v : PyVal) : Result () :=
  if is_None v then inr () else validator v.

Inductive ArcClass : Type := ArcPT | CompletedArcPT | ArcTP | CompletedArcTP.

Global Instance ArcClass_eq_dec : EqDecision ArcClass.
Proof. solve_decision. Defined.

(** The state of an arc object: its class and its six fields. *)
Record Arc : Type := mkArc {
  arc_class : ArcClass;
  src : PyVal;
  dest : PyVal;
  weight : ColorSet;
  annotation : option string;
  transform : option Callable;
  completed : bool
}.

(** By default, arcs transmit a single Abstract token. *)
Definition default_arc_weight : ColorSet := pmap {[ Abstract := 1 ]}.

(** The per-class parts of the field declarations. *)
Definition src_validator (cls : ArcClass) : PyVal → Result () :=
  match cls with
  | ArcPT => optional (instance_of TPlace)
  | CompletedArcPT => instance_of TPlace
  | ArcTP => optional (instance_of TTransition)
  | CompletedArcTP => instance_of TTransition
  end.

Definition dest_validator (cls : ArcClass) : PyVal → Result () :=
  match cls with
  | ArcPT => optional (instance_of TTransition)
  | CompletedArcPT => instance_of TTransition
  | ArcTP => optional (instance_of TPlace)
  | CompletedArcTP => instance_of TPlace
  end.

Definition weight_converter (cls : ArcClass) (w : ColorSet) : ColorSet :=
  match cls with
  | ArcPT | CompletedArcPT => w
  | ArcTP | CompletedArcTP => pmap w
  end.

Definition completed_default (cls : ArcClass) : bool :=
  match cls with
  | ArcPT | ArcTP => false
  | CompletedArcPT | CompletedArcTP => true
  end.

(** ** The object store *)

Inductive Obj : Type :=
  | OArc (a : Arc)
  | OFunction (self : TransformEach).

Definition new_object (o : Obj) : M (list Obj) Ref :=
  λ s, (inr (length s), s ++ [o]).

(** Reading the fields of the arc object at [r]. *)
Definition load (r : Ref) : M (list Obj) Arc :=
  λ s, match s !! r with
       | Some (OArc a) => (inr a, s)
       | _ => (inl AttributeError, s)
       end.

(** The [__init__] that [define] generates, called as
    [cls(src=, dest=, weight=, annotation=, transform=, completed=)]:
    [weight] and [completed] are [None] here when the call leaves them out.
    Fields are set (defaults and converters applied), then the validators
    run in field order.  A call that leaves [src] or [dest] out is the call
    with [None] there: that is their default in [ArcPT] and [ArcTP], and in
    the completed classes, where both are required, either call raises
    [TypeError]. *)
Definition new (cls : ArcClass) (src dest : PyVal) (weight : option ColorSet)
    (annotation : option string) (transform : option Callable)
    (completed : option bool) : M (list Obj) Ref :=
  let self :=
    {| arc_class := cls;
       src := src;
       dest := dest;
       weight := weight_converter cls (default default_arc_weight weight);
       annotation := annotation;
       transform := transform;
       completed := default (completed_default cls) completed |} in
  lift (src_validator cls src);;
  lift (dest_validator cls dest);;
  new_object (OArc self).

(** ** The fragments *)

Definition Annotate_apply_to_arc (self : Annotate) (arc : Ref) : M (list Obj) Ref :=
  a ← load arc;
  new (arc_class a) (src a) (dest a) (Some (weight a))
      (Some (text self)) (transform a) None.

Definition TransformEach_apply_to_arc (self : TransformEach) (arc : Ref) :
    M (list Obj) Ref :=
  f ← new_object (OFunction self);
  a ← load arc;
  new (arc_class a) (src a) (dest a) (Some (weight a))
      (annotation a) (Some (TransformClosure f self)) None.

(** [isinstance(other, (Annotate, TransformEach))]. *)
Definition is_fragment (other : PyVal) : bool :=
  match other with
  | VAnnotate _ | VTransformEach _ => true
  | _ => false
  end.

Definition apply_to_arc (other : PyVal) (arc : Ref) : M (list Obj) Ref :=
  match other with
  | VAnnotate f => Annotate_apply_to_arc f arc
  | VTransformEach f => TransformEach_apply_to_arc f arc
  | _ => raise AttributeError
  end.

(** ** The builder operators *)

Definition ArcPT_lshift (self : Ref) (other : PyVal) : M (list Obj) Ref :=
  if is_fragment other then apply_to_arc other self
  else
    a ← load self;
    if is_None (dest a)
    then raise (PetriNetArcIncomplete "Cannot << to an arc not having a dest")
    else new CompletedArcPT other (dest a) (Some (weight a))
             (annotation a) (transform a) None.

Definition ArcPT_rshift (self : Ref) (other : PyVal) : M (list Obj) Ref :=
  if is_fragment other then apply_to_arc other self
  else
    a ← load self;
    if is_None (src a)
    then raise (PetriNetArcIncomplete "Cannot >> from an arc not having a src")
    else new CompletedArcPT (src a) other (Some (weight a))
             (annotation a) (transform a) None.

Definition ArcTP_lshift (self : Ref) (other : PyVal) : M (list Obj) Ref :=
  if is_fragment other then apply_to_arc other self
  else
    a ← load self;
    if is_None (dest a)
    then raise (PetriNetArcIncomplete "Cannot << to an arc not having a dest")
    else new CompletedArcTP other (dest a) (Some (weight a))
             (annotation a) (transform a) None.

Definition ArcTP_rshift (self : Ref) (other : PyVal) : M (list Obj) Ref :=
  if is_fragment other then apply_to_arc other self
  else
    a ← load self;
    if is_None (src a)
    then raise (PetriNetArcIncomplete "Cannot >> from an arc not having a src")
    else new CompletedArcTP (src a) other (Some (weight a))
             (annotation a) (transform a) None.

(** [self << other] and [self >> other] on an arc object: the method of the
    object's class, which the completed classes inherit. *)
Definition lshift (self : Ref) (other : PyVal) : M (list Obj) Ref :=
  a ← load self;
  match arc_class a with
  | ArcPT | CompletedArcPT => ArcPT_lshift self other
  | ArcTP | CompletedArcTP => ArcTP_lshift self other
  end.

Definition rshift (self : Ref) (other : PyVal) : M (list Obj) Ref :=
  a ← load self;
  match arc_class a with
  | ArcPT | CompletedArcPT => ArcPT_rshift self other
  | ArcTP | CompletedArcTP => ArcTP_rshift self other
  end.

(** ** Equality, hashing and ordering *)

(** [f is g] on function objects. *)
Definition callable_is (f g : Callable) : bool :=
  match f, g with
  | UserCallable i _, UserCallable j _ => bool_decide (i = j)
  | TransformClosure l _, TransformClosure m _ => bool_decide (l = m)
  | _, _ => false
  end.

(** [x == y]: nodes and colors compare by identity, fragments field by
    field, as [define] generates it, and functions by identity. *)
Definition py_eq (x y : PyVal) : bool :=
  match x, y with
  | VNone, VNone => true
  | VPlace p, VPlace q => bool_decide (p = q)
  | VTransition t, VTransition u => bool_decide (t = u)
  | VAnnotate a, VAnnotate b => bool_decide (text a = text b)
  | VTransformEach f, VTransformEach g =>
      bool_decide (fn_id (fn f) = fn_id (fn g))
  | VColor c, VColor d => bool_decide (c = d)
  | _, _ => false
  end.

Definition transform_eq (f g : option Callable) : bool :=
  match f, g with
  | None, None => true
  | Some f, Some g => callable_is f g
  | _, _ => false
  end.

(** The [__eq__] that [define] generates for each of the four classes: the
    classes must be the same, then all six fields are compared. *)
Definition attrs_eq (self other : Arc) : bool :=
  bool_decide (arc_class self = arc_class other)
  && py_eq (src self) (src other)
  && py_eq (dest self) (dest other)
  && bool_decide (weight self = weight other)
  && bool_decide (annotation self = annotation other)
  && transform_eq (transform self) (transform other)
  && bool_decide (completed self = completed other).

(** The built-in [hash] on the tuples [__arc_hash__] builds. *)
Variable hash_tuple : PyVal * PyVal * gset (Color * Z) → Z.

(** Common implementation of [__hash__] for all Arc types. *)
Definition __arc_hash__ (self : Arc) : Z :=
  hash_tuple (src self, dest self, list_to_set (map_to_list (weight self))).

(** [hash(arc)]: the completed classes set [__hash__ = __arc_hash__]; the
    other two get [__eq__] from [define] and no [__hash__], so their objects
    are unhashable. *)
Definition py_hash (self : Arc) : Result Z :=
  match arc_class self with
  | CompletedArcPT | CompletedArcTP => inr (__arc_hash__ self)
  | ArcPT | ArcTP => inl TypeError
  end.

(** [node.name]. *)
Definition getattr_name (v : PyVal) : Result string :=
  match v with
  | VPlace p => inr (place_name p)
  | VTransition t => inr (transition_name t)
  | _ => inl AttributeError
  end.

(** [<] on [str] and on pairs of [str].  Strings are compared character by
    character, a proper prefix being the smaller; the characters here are
    the bytes of the encoded name, which order as Python's code points do.
    A pair is compared at its first component that differs. *)
Definition str_lt (x y : string) : bool := String.ltb x y.

Definition tuple_lt (x y : string * string) : bool :=
  if bool_decide (x.1 = y.1)
  then if bool_decide (x.2 = y.2) then false else str_lt x.2 y.2
  else str_lt x.1 y.1.

(** Common implementation of [__lt__] for all Arc types. *)
Definition __arc_lt__ (self other : Arc) : Result bool :=
  a ← getattr_name (src self);
  b ← getattr_name (dest self);
  c ← getattr_name (src other);
  d ← getattr_name (dest other);
  mret (tuple_lt (a, b) (c, d)).

(** [self < other]: only the completed classes define [__lt__]. *)
Definition py_lt (self other : Arc) : Result bool :=
  match arc_class self with
  | CompletedArcPT | CompletedArcTP => __arc_lt__ self other
  | ArcPT | ArcTP => inl TypeError
  end.

(** [set(xs)] on arc objects: an element is added unless the set holds one
    with the same hash that is equal to it. *)
Definition set_add (elems : list Arc) (x : Arc) : Result (list Arc) :=
  h ← py_hash x;
  if existsb (λ y, bool_decide (py_hash y = inr h) && attrs_eq y x) elems
  then mret elems
  else mret (elems ++ [x]).

Definition py_set (xs : list Arc) : Result (list Arc) :=
  foldl (λ acc x, elems ← acc; set_add elems x) (inr []) xs.

(** ** Calling a transform *)

(** The order in which a [frozenset] is iterated. *)
Variable iter : TokenSet → list Token.

(** The generator [transformed_tokens] of [TransformEach.apply_to_arc], run
    to its end: [self.fn] is called on each token in turn. *)
Fixpoint transformed_tokens (self : TransformEach) (tokens : list Token) :
    M St (list Token) :=
  match tokens with
  | [] => mret []
  | token :: tokens =>
      t ← fn_call (fn self) token;
      ts ← transformed_tokens self tokens;
      mret (t :: ts)
  end.

(** The inner function [transform] of [TransformEach.apply_to_arc]. *)
Definition TransformEach_transform (self : TransformEach) (tokens : TokenSet) :
    M St TokenSet :=
  ts ← transformed_tokens self (iter tokens);
  mret (list_to_set ts).

(** [f(tokens)] for what an arc's [transform] field holds. *)
Definition call (f : Callable) (tokens : TokenSet) : M St TokenSet :=
  match f with
  | UserCallable _ body => body tokens
  | TransformClosure _ self => TransformEach_transform self tokens
  end.

(** ** Notions the properties are stated with *)

(** What the validators of its class keep true of an arc object: they run
    when the object is made and whenever [src] or [dest] is assigned. *)
Definition valid (a : Arc) : Prop :=
  src_validator (arc_class a) (src a) = inr ()
  ∧ dest_validator (arc_class a) (dest a) = inr ().

(** Every arc object of a store satisfies the validators of its class. *)
Definition store_valid (s : list Obj) : Prop :=
  ∀ r a, s !! r = Some (OArc a) → valid a.

(** A node is a place or a transition. *)
Definition is_node (v : PyVal) : bool :=
  isinstance v TPlace || isinstance v TTransition.

Definition is_completed_class (cls : ArcClass) : bool :=
  match cls with
  | CompletedArcPT | CompletedArcTP => true
  | ArcPT | ArcTP => false
  end.

(** The class of the arcs that [>>] and [<<] build from an arc of class
    [cls], and the node classes its two ends take. *)
Definition completed_of (cls : ArcClass) : ArcClass :=
  match cls with
  | ArcPT | CompletedArcPT => CompletedArcPT
  | ArcTP | CompletedArcTP => CompletedArcTP
  end.

Definition src_type (cls : ArcClass) : PyType :=
  match cls with
  | ArcPT | CompletedArcPT => TPlace
  | ArcTP | CompletedArcTP => TTransition
  end.

Definition dest_type (cls : ArcClass) : PyType :=
  match cls with
  | ArcPT | CompletedArcPT => TTransition
  | ArcTP | CompletedArcTP => TPlace
  end.

(** The pair [(src.name, dest.name)] of an arc. *)
Definition names (a : Arc) : Result (string * string) :=
  x ← getattr_name (src a);
  y ← getattr_name (dest a);
  mret (x, y).

(** The lexicographic order on pairs of names, as the specification words
    it: the first names are in order, or they agree and the second are. *)
Definition lex_lt (x y : string * string) : Prop :=
  str_lt x.1 y.1 = true ∨ (x.1 = y.1 ∧ str_lt x.2 y.2 = true).

(** Element-wise application, as the specification words it: [fn] is called
    once on each token, in order, each call starting in the state the call
    before it left, and [xs] lists what the calls returned. *)
Inductive each_called (f : TokenFn) :
    list Token → St → list Token → St → Prop :=
  | each_called_nil st : each_called f [] st [] st
  | each_called_cons t ts x xs st st' st'' :
      fn_call f t st = (inr x, st') →
      each_called f ts st' xs st'' →
      each_called f (t :: ts) st (x :: xs) st''.

End ArcModel.

Global Arguments Arc : clear implicits.
Global Arguments Obj : clear implicits.
Global Arguments PyVal : clear implicits.
Global Arguments Callable : clear implicits.
Global Arguments TransformEach : clear implicits.
Global Arguments TokenFn : clear implicits.

(** ** Sample objects

    Two places, two transitions and a few arcs between them, over user
    callables that keep no state. *)

Module Sample.

Definition P : Place := mkPlace 0 "P".
Definition Q : Place := mkPlace 1 "Q".
Definition T : Transition := mkTransition 2 "T".
Definition U : Transition := mkTransition 3 "U".

Definition arc (cls : ArcClass) (v1 v2 : PyVal ()) (ann : option string) :
    Arc () :=
  {| arc_class := cls; src := v1; dest := v2; weight := default_arc_weight;
     annotation := ann; transform := None;
     completed := completed_default cls |}.

(** [P >> T], [T >> P], and [P >> T] carrying an annotation. *)
Definition P_T : Arc () := arc CompletedArcPT (VPlace P) (VTransition T) None.
Definition T_P : Arc () := arc CompletedArcTP (VTransition T) (VPlace P) None.
Definition P_T_noted : Arc () :=
  arc CompletedArcPT (VPlace P) (VTransition T) (Some "A0").

(** [ArcPT(src=P)] and [ArcPT(dest=T)]; [ArcTP(src=T)] and [ArcTP(dest=P)]. *)
Definition P_open : Arc () := arc ArcPT (VPlace P) VNone None.
Definition open_T : Arc () := arc ArcPT VNone (VTransition T) None.
Definition T_open : Arc () := arc ArcTP (VTransition T) VNone None.
Definition open_P : Arc () := arc ArcTP VNone (VPlace P) None.

(** Three tokens, a function that returns the token it is given, and one
    that returns the first token whatever it is given. *)
Definition k0 : Token := mkToken 0.
Definition k1 : Token := mkToken 1.
Definition k2 : Token := mkToken 2.

Definition same_token : TokenFn () := mkTokenFn 0 (λ t st, (inr t, st)).
Definition always_k0 : TokenFn () := mkTokenFn 1 (λ _ st, (inr k0, st)).

(** A hash of the tuples [__arc_hash__] builds. *)
Definition hash_tuple (key : PyVal () * PyVal () * gset (Color * Z)) : Z :=
  Z.of_nat (size key.2).

End Sample.

(** ** Chained operators and [__arc_repr__] *)

Section Chains.

Context {St : Type}.

(** The two builder operators. *)
Inductive Shift : Type := Rshift | Lshift.

Definition shift (d : Shift) (self : Ref) (other : PyVal St) :
    M (list (Obj St)) Ref :=
  match d with
  | Rshift => rshift self other
  | Lshift => lshift self other
  end.

(** A chain [self >> o1 << o2 >> ...], evaluated from the left as Python
    does: each operator is applied to the arc the one before it returned. *)
Fixpoint shift_all (self : Ref) (steps : list (Shift * PyVal St)) :
    M (list (Obj St)) Ref :=
  match steps with
  | [] => mret self
  | (d, other) :: steps => r ← shift d self other; shift_all r steps
  end.

(** The text of the last [Annotate] and the last [TransformEach] among the
    operands of a chain. *)
Fixpoint last_annotate (others : list (PyVal St)) : option string :=
  match others with
  | [] => None
  | other :: others =>
      match last_annotate others, other with
      | Some t, _ => Some t
      | None, VAnnotate f => Some (text f)
      | None, _ => None
      end
  end.

Fixpoint last_transform_each (others : list (PyVal St)) :
    option (TransformEach St) :=
  match others with
  | [] => None
  | other :: others =>
      match last_transform_each others, other with
      | Some g, _ => Some g
      | None, VTransformEach g => Some g
      | None, _ => None
      end
  end.

(** What [__arc_repr__] takes from other modules: [repr] of a node,
    [colorset_string] and [defaults.ARROW]. *)
Variable repr : PyVal St → string.
Variable colorset_string : ColorSet → string.
Variable ARROW : string.


End Chains.


(** ** The callables of the example and of the tests

    [examples/understanding_petri_nets/figure_1_12.py] puts the function
    [x_minus_1] on an arc with [TransformEach] and guards a transition with
    [counter_x_gt_0]; [tests/test_arc.py] uses [x_plus_1] and [x_minus_2].
    They read and make tokens, so the state they run in is the heap of the
    token objects. *)

(** Modelled from the spec: [token.py] is not among the sources.  A token
    carries a color and an immutable mapping of named fields, [data]; the
    fields the callables of the repository read hold integers. *)
Record TokenObject : Type :=
  mkTokenObject { token_color : Color; token_data : gmap string Z }.

(** The heap of token objects: the token of identity [i] is the [i]-th. *)
Abbreviation TokenHeap := (list TokenObject).

(** What [d[key]] raises when [key] is missing. *)
Definition KeyError : Exc := UserError 0.

(** Reading the token object behind [t]. *)
Definition token_object (t : Token) : M TokenHeap TokenObject :=
  λ h, match h !! token_id t with
       | Some o => (inr o, h)
       | None => (inl AttributeError, h)
       end.



Module Figure_1_12.

Definition Coin : Color := Named "🪙".
Definition Packet : Color := Named "📦".
Definition Counter : Color := Named "🧮".


(** [all(counter.data["x"] > 0 for counter in counters)], where [counters]
    are the tokens of [inputs] whose color is [Counter]: the tokens are
    visited in order, and the first counter whose [x] is not positive ends
    the visit. *)
Fixpoint counter_x_gt_0 (inputs : list Token) : M TokenHeap bool :=
  match inputs with
  | [] => mret true
  | token :: inputs =>
      o ← token_object token;
      if bool_decide (token_color o = Counter)
      then match token_data o !! "x" with
           | Some x =>
               if bool_decide (0 < x) then counter_x_gt_0 inputs
               else mret false
           | None => raise KeyError
           end
      else counter_x_gt_0 inputs
  end.


(** The token behind [t] is a counter; the [x] it carries. *)
Definition is_counter (h : TokenHeap) (t : Token) : Prop :=
  ∃ o, h !! token_id t = Some o ∧ token_color o = Counter.

Definition x_of (h : TokenHeap) (t : Token) : option Z :=
  o ← h !! token_id t; token_data o !! "x".



End Figure_1_12.

Module Test_arc.



End Test_arc.

Module TokenSample.

(** A counter with [x = 3], one with [x = 0], a coin without data, and
    [Token()]. *)
Definition counter_3 : TokenObject :=
  mkTokenObject Figure_1_12.Counter {[ "x" := 3 ]}.
Definition counter_0 : TokenObject :=
  mkTokenObject Figure_1_12.Counter {[ "x" := 0 ]}.
Definition coin : TokenObject := mkTokenObject Figure_1_12.Coin ∅.

End TokenSample.

(** * Properties *)

Section Construction.

Context {St : Type}.

Implicit Types (a : Arc St) (s : list (Obj St)) (r : Ref).
Implicit Types (cls : ArcClass) (n v : PyVal St).

(** ** The generated constructor *)

Lemma instance_of_inr t v : instance_of t v = inr () ↔ isinstance v t = true.
Proof. unfold instance_of. destruct (isinstance v t); naive_solver. Qed.

Lemma instance_of_inl t v :
  instance_of t v = inl TypeError ↔ isinstance v t = false.
Proof. unfold instance_of. destruct (isinstance v t); naive_solver. Qed.

Lemma src_validator_raises cls v e : src_validator cls v = inl e → e = TypeError.
Proof.
  destruct cls, v; cbv [src_validator optional instance_of is_None isinstance];
    congruence.
Qed.

Lemma dest_validator_raises cls v e : dest_validator cls v = inl e → e = TypeError.
Proof.
  destruct cls, v; cbv [dest_validator optional instance_of is_None isinstance];
    congruence.
Qed.

Lemma new_returns cls v1 v2 w ann tr c s :
  src_validator cls v1 = inr () → dest_validator cls v2 = inr () →
  new cls v1 v2 w ann tr c s
  = (inr (length s),
     s ++ [OArc {| arc_class := cls; src := v1; dest := v2;
                   weight := weight_converter cls (default default_arc_weight w);
                   annotation := ann; transform := tr;
                   completed := default (completed_default cls) c |}]).
Proof.
  intros H1 H2. unfold new, mbind, M_bind, lift. by rewrite H1, H2.
Qed.

Lemma new_raises cls v1 v2 w ann tr c s :
  (∃ e, src_validator cls v1 = inl e) ∨ (∃ e, dest_validator cls v2 = inl e) →
  new cls v1 v2 w ann tr c s = (inl TypeError, s).
Proof.
  unfold new, mbind, M_bind, lift.
  destruct (src_validator cls v1) as [e1|[]] eqn:H1.
  { by rewrite (src_validator_raises _ _ _ H1). }
  destruct (dest_validator cls v2) as [e2|[]] eqn:H2.
  { by rewrite (dest_validator_raises _ _ _ H2). }
  intros [[e ?]|[e ?]]; congruence.
Qed.

Lemma new_valid cls v1 v2 w ann tr c s r s' :
  new cls v1 v2 w ann tr c s = (inr r, s') →
  ∃ a, s' = s ++ [OArc a] ∧ r = length s ∧ valid a ∧ arc_class a = cls.
Proof.
  destruct (src_validator cls v1) as [e1|[]] eqn:H1.
  { rewrite new_raises by eauto. congruence. }
  destruct (dest_validator cls v2) as [e2|[]] eqn:H2.
  { rewrite new_raises by eauto. congruence. }
  rewrite new_returns by done. intros [= <- <-].
  eexists. split; [done|]. by repeat split.
Qed.

Lemma load_arc s r a : s !! r = Some (OArc a) → load r s = (inr a, s).
Proof. intros H. unfold load. by rewrite H. Qed.

Lemma lookup_new_object s (o : Obj St) : (s ++ [o]) !! length s = Some o.
Proof. by rewrite lookup_app_r, Nat.sub_diag by lia. Qed.

(** C4. Building a [CompletedArcPT] whose [src] is not a place or whose
    [dest] is not a transition raises [TypeError] and makes no object, and
    so does building a [CompletedArcTP] whose [src] is not a transition or
    whose [dest] is not a place; no class of arc can be built from two
    places or from two transitions. *)
Theorem completed_arc_endpoint_kinds :
  (∀ v1 v2 w ann tr c s,
     isinstance v1 TPlace = false ∨ isinstance v2 TTransition = false →
     new CompletedArcPT v1 v2 w ann tr c s = (inl TypeError, s))
  ∧ (∀ v1 v2 w ann tr c s,
     isinstance v1 TTransition = false ∨ isinstance v2 TPlace = false →
     new CompletedArcTP v1 v2 w ann tr c s = (inl TypeError, s))
  ∧ (∀ cls (p q : Place) w ann tr c s,
     new cls (VPlace p) (VPlace q) w ann tr c s = (inl TypeError, s))
  ∧ (∀ cls (t u : Transition) w ann tr c s,
     new cls (VTransition t) (VTransition u) w ann tr c s = (inl TypeError, s)).
Proof.
  split_and!.
  - intros * [H|H]; apply new_raises.
    + left. exists TypeError. by apply instance_of_inl.
    + right. exists TypeError. by apply instance_of_inl.
  - intros * [H|H]; apply new_raises.
    + left. exists TypeError. by apply instance_of_inl.
    + right. exists TypeError. by apply instance_of_inl.
  - intros [] *; apply new_raises;
      first [by left; exists TypeError|by right; exists TypeError].
  - intros [] *; apply new_raises;
      first [by left; exists TypeError|by right; exists TypeError].
Qed.

(** ** The operators on an arc in the store *)

Lemma weight_converter_pmap cls (w : ColorSet) : weight_converter cls w = w.
Proof. by destruct cls. Qed.

Lemma new_completed s cls v1 v2 (w : ColorSet) ann tr :
  is_completed_class cls = true →
  new cls v1 v2 (Some w) ann tr None s
  = if isinstance v1 (src_type cls) && isinstance v2 (dest_type cls)
    then (inr (length s),
          s ++ [OArc {| arc_class := cls; src := v1; dest := v2; weight := w;
                        annotation := ann; transform := tr;
                        completed := true |}])
    else (inl TypeError, s).
Proof.
  intros Hc.
  destruct (isinstance v1 (src_type cls)) eqn:H1;
    [destruct (isinstance v2 (dest_type cls)) eqn:H2|]; simpl.
  - rewrite new_returns, weight_converter_pmap.
    + by destruct cls.
    + destruct cls; try done; by apply instance_of_inr.
    + destruct cls; try done; by apply instance_of_inr.
  - apply new_raises. right. exists TypeError.
    destruct cls; try done; by apply instance_of_inl.
  - apply new_raises. left. exists TypeError.
    destruct cls; try done; by apply instance_of_inl.
Qed.

Lemma rshift_node s r a n :
  s !! r = Some (OArc a) → is_fragment n = false →
  rshift r n s
  = if is_None (src a)
    then (inl (PetriNetArcIncomplete "Cannot >> from an arc not having a src"), s)
    else new (completed_of (arc_class a)) (src a) n (Some (weight a))
             (annotation a) (transform a) None s.
Proof.
  intros Hr Hn. unfold rshift, mbind, M_bind. rewrite (load_arc _ _ _ Hr).
  destruct (arc_class a); unfold ArcPT_rshift, ArcTP_rshift;
    rewrite Hn; unfold mbind, M_bind; rewrite (load_arc _ _ _ Hr);
    by destruct (is_None (src a)).
Qed.

Lemma lshift_node s r a n :
  s !! r = Some (OArc a) → is_fragment n = false →
  lshift r n s
  = if is_None (dest a)
    then (inl (PetriNetArcIncomplete "Cannot << to an arc not having a dest"), s)
    else new (completed_of (arc_class a)) n (dest a) (Some (weight a))
             (annotation a) (transform a) None s.
Proof.
  intros Hr Hn. unfold lshift, mbind, M_bind. rewrite (load_arc _ _ _ Hr).
  destruct (arc_class a); unfold ArcPT_lshift, ArcTP_lshift;
    rewrite Hn; unfold mbind, M_bind; rewrite (load_arc _ _ _ Hr);
    by destruct (is_None (dest a)).
Qed.

Lemma shift_fragment s r a n :
  s !! r = Some (OArc a) → is_fragment n = true →
  rshift r n s = apply_to_arc n r s ∧ lshift r n s = apply_to_arc n r s.
Proof.
  intros Hr Hn. unfold rshift, lshift, mbind, M_bind.
  rewrite (load_arc _ _ _ Hr).
  destruct (arc_class a);
    unfold ArcPT_rshift, ArcTP_rshift, ArcPT_lshift, ArcTP_lshift;
    by rewrite Hn.
Qed.

Lemma node_not_fragment n : is_node n = true → is_fragment n = false.
Proof. by destruct n. Qed.

Lemma valid_src a :
  valid a → is_None (src a) = false →
  isinstance (src a) (src_type (arc_class a)) = true.
Proof.
  intros [H _] Hn. revert H.
  destruct (arc_class a); simpl; unfold optional; rewrite ?Hn;
    apply instance_of_inr.
Qed.

Lemma valid_dest a :
  valid a → is_None (dest a) = false →
  isinstance (dest a) (dest_type (arc_class a)) = true.
Proof.
  intros [_ H] Hn. revert H.
  destruct (arc_class a); simpl; unfold optional; rewrite ?Hn;
    apply instance_of_inr.
Qed.

Lemma valid_completed a :
  valid a → is_completed_class (arc_class a) = true →
  isinstance (src a) (src_type (arc_class a)) = true
  ∧ isinstance (dest a) (dest_type (arc_class a)) = true.
Proof.
  intros [H1 H2] Hc. revert H1 H2.
  destruct (arc_class a); try done; simpl; rewrite !instance_of_inr; done.
Qed.

Lemma isinstance_not_None v t : isinstance v t = true → is_None v = false.
Proof. by destruct v. Qed.

End Construction.

Section Builder.

Context {St : Type}.

Implicit Types (a : Arc St) (s : list (Obj St)) (r : Ref).
Implicit Types (cls : ArcClass) (n v : PyVal St).

(** C1 (as amended). [>>] or [<<] with a node on a completed arc never
    raises [PetriNetArcIncomplete]: with a node of the class that end takes
    it allocates a new completed arc of the same class in which the node
    replaces that end and every other field is kept; with a node of the
    other class it raises [TypeError]. *)
Theorem completed_arc_shift_node s r a n :
  s !! r = Some (OArc a) →
  is_completed_class (arc_class a) = true →
  valid a →
  is_node n = true →
  rshift r n s
  = (if isinstance n (dest_type (arc_class a))
     then (inr (length s),
           s ++ [OArc {| arc_class := arc_class a; src := src a; dest := n;
                         weight := weight a; annotation := annotation a;
                         transform := transform a; completed := true |}])
     else (inl TypeError, s))
  ∧ lshift r n s
    = (if isinstance n (src_type (arc_class a))
       then (inr (length s),
             s ++ [OArc {| arc_class := arc_class a; src := n; dest := dest a;
                           weight := weight a; annotation := annotation a;
                           transform := transform a; completed := true |}])
       else (inl TypeError, s)).
Proof.
  intros Hr Hc Hv Hn.
  destruct (valid_completed _ Hv Hc) as [Hs Hd].
  assert (completed_of (arc_class a) = arc_class a) as Hk
    by by destruct (arc_class a).
  split.
  - rewrite (rshift_node _ _ _ _ Hr (node_not_fragment _ Hn)).
    rewrite (isinstance_not_None _ _ Hs), Hk, new_completed by done.
    by rewrite Hs.
  - rewrite (lshift_node _ _ _ _ Hr (node_not_fragment _ Hn)).
    rewrite (isinstance_not_None _ _ Hd), Hk, new_completed by done.
    by rewrite Hd, andb_true_r.
Qed.

(** C3 (as amended). On an [ArcPT] or [ArcTP], [>>] with a node raises
    [PetriNetArcIncomplete] when [src] is [None], and [<<] with a node
    raises it when [dest] is [None].  When the end the operator needs is
    present, a node of the class the other end takes gives a new completed
    arc, and a node of the other class raises [TypeError]. *)
Theorem partial_arc_shift_node s r a n :
  s !! r = Some (OArc a) →
  is_completed_class (arc_class a) = false →
  valid a →
  is_node n = true →
  (src a = VNone →
   rshift r n s
   = (inl (PetriNetArcIncomplete "Cannot >> from an arc not having a src"), s))
  ∧ (dest a = VNone →
     lshift r n s
     = (inl (PetriNetArcIncomplete "Cannot << to an arc not having a dest"), s))
  ∧ (src a ≠ VNone →
     rshift r n s
     = (if isinstance n (dest_type (arc_class a))
        then (inr (length s),
              s ++ [OArc {| arc_class := completed_of (arc_class a);
                            src := src a; dest := n;
                            weight := weight a; annotation := annotation a;
                            transform := transform a; completed := true |}])
        else (inl TypeError, s)))
  ∧ (dest a ≠ VNone →
     lshift r n s
     = (if isinstance n (src_type (arc_class a))
        then (inr (length s),
              s ++ [OArc {| arc_class := completed_of (arc_class a);
                            src := n; dest := dest a;
                            weight := weight a; annotation := annotation a;
                            transform := transform a; completed := true |}])
        else (inl TypeError, s))).
Proof.
  intros Hr Hc Hv Hn.
  pose proof (rshift_node _ _ _ _ Hr (node_not_fragment _ Hn)) as HR.
  pose proof (lshift_node _ _ _ _ Hr (node_not_fragment _ Hn)) as HL.
  assert (is_completed_class (completed_of (arc_class a)) = true) as Hk
    by by destruct (arc_class a).
  assert (src_type (completed_of (arc_class a)) = src_type (arc_class a)
          ∧ dest_type (completed_of (arc_class a)) = dest_type (arc_class a))
    as [Hst Hdt] by by destruct (arc_class a).
  split_and!.
  - intros H. by rewrite HR, H.
  - intros H. by rewrite HL, H.
  - intros H. assert (is_None (src a) = false) as Hs by by destruct (src a).
    rewrite HR, Hs, new_completed, Hst, Hdt by done.
    by rewrite (valid_src _ Hv Hs).
  - intros H. assert (is_None (dest a) = false) as Hd by by destruct (dest a).
    rewrite HL, Hd, new_completed, Hst, Hdt by done.
    by rewrite (valid_dest _ Hv Hd), andb_true_r.
Qed.

(** ** Equality of arcs *)

Lemma py_eq_refl v : py_eq v v = true.
Proof. destruct v; simpl; by rewrite ?bool_decide_eq_true. Qed.

Lemma callable_is_refl (f : Callable St) : callable_is f f = true.
Proof. destruct f; simpl; by rewrite bool_decide_eq_true. Qed.

Lemma transform_eq_refl (f : option (Callable St)) : transform_eq f f = true.
Proof. destruct f; simpl; [apply callable_is_refl|done]. Qed.

Lemma attrs_eq_refl a : attrs_eq a a = true.
Proof.
  unfold attrs_eq.
  by rewrite !py_eq_refl, transform_eq_refl, !bool_decide_eq_true_2.
Qed.

(** C5. An [ArcPT] carrying [src = p] completed by [>> t] and an [ArcPT]
    carrying [dest = t] completed by [<< p] give equal arcs when the two
    carry the same weight, annotation and transform; and so do an [ArcTP]
    carrying [src = t] completed by [>> p] and an [ArcTP] carrying
    [dest = p] completed by [<< t].  Both results are completed arcs. *)
Theorem shift_directions_agree s r1 r2 a1 a2 (p : Place) (t : Transition) :
  s !! r1 = Some (OArc a1) →
  s !! r2 = Some (OArc a2) →
  weight a1 = weight a2 →
  annotation a1 = annotation a2 →
  transform a1 = transform a2 →
  (arc_class a1 = ArcPT → arc_class a2 = ArcPT →
   src a1 = VPlace p → dest a2 = VTransition t →
   ∃ c1 c2,
     rshift r1 (VTransition t) s = (inr (length s), s ++ [OArc c1])
     ∧ lshift r2 (VPlace p) (s ++ [OArc c1])
       = (inr (S (length s)), s ++ [OArc c1; OArc c2])
     ∧ arc_class c1 = CompletedArcPT
     ∧ arc_class c2 = CompletedArcPT
     ∧ src c1 = VPlace p ∧ dest c1 = VTransition t ∧ weight c1 = weight a1
     ∧ attrs_eq c1 c2 = true)
  ∧ (arc_class a1 = ArcTP → arc_class a2 = ArcTP →
     src a1 = VTransition t → dest a2 = VPlace p →
     ∃ c1 c2,
       rshift r1 (VPlace p) s = (inr (length s), s ++ [OArc c1])
       ∧ lshift r2 (VTransition t) (s ++ [OArc c1])
         = (inr (S (length s)), s ++ [OArc c1; OArc c2])
       ∧ arc_class c1 = CompletedArcTP
       ∧ arc_class c2 = CompletedArcTP
       ∧ src c1 = VTransition t ∧ dest c1 = VPlace p ∧ weight c1 = weight a1
       ∧ attrs_eq c1 c2 = true).
Proof.
  intros Hr1 Hr2 Hw Ha Ht.
  split; intros Hc1 Hc2 Hs Hd; do 2 eexists.
  - rewrite (rshift_node _ _ _ _ Hr1), Hs, Hc1 by done. simpl.
    rewrite new_completed by done. simpl. split; [done|].
    erewrite lshift_node; [|by apply lookup_app_l_Some|done].
    rewrite Hd, Hc2. simpl. rewrite new_completed by done. simpl.
    rewrite length_app, Nat.add_1_r, <-app_assoc. simpl.
    do 6 (split; [done|]).
    rewrite Hw, Ha, Ht. apply attrs_eq_refl.
  - rewrite (rshift_node _ _ _ _ Hr1), Hs, Hc1 by done. simpl.
    rewrite new_completed by done. simpl. split; [done|].
    erewrite lshift_node; [|by apply lookup_app_l_Some|done].
    rewrite Hd, Hc2. simpl. rewrite new_completed by done. simpl.
    rewrite length_app, Nat.add_1_r, <-app_assoc. simpl.
    do 6 (split; [done|]).
    rewrite Hw, Ha, Ht. apply attrs_eq_refl.
Qed.

(** C7. An arc of any of the four classes that is built without a weight
    holds the weight [{Abstract: 1}]; building one succeeds whenever the
    validators of the class accept the two ends, as they do for [ArcPT()]
    and [ArcTP()]. *)
Theorem default_weight_is_one_abstract cls v1 v2 ann tr c s :
  (∀ r s', new cls v1 v2 None ann tr c s = (inr r, s') →
     ∃ a, s' !! r = Some (OArc a) ∧ arc_class a = cls
          ∧ weight a = {[ Abstract := 1 ]})
  ∧ (src_validator cls v1 = inr () → dest_validator cls v2 = inr () →
     ∃ a, new cls v1 v2 None ann tr c s = (inr (length s), s ++ [OArc a])
          ∧ arc_class a = cls ∧ src a = v1 ∧ dest a = v2
          ∧ weight a = {[ Abstract := 1 ]})
  ∧ (∃ a, new ArcPT VNone VNone None ann tr c s
          = (inr (length s), s ++ [OArc a])
          ∧ weight a = {[ Abstract := 1 ]})
  ∧ (∃ a, new ArcTP VNone VNone None ann tr c s
          = (inr (length s), s ++ [OArc a])
          ∧ weight a = {[ Abstract := 1 ]}).
Proof.
  assert (∀ cls' w1 w2,
            src_validator cls' w1 = inr () → dest_validator cls' w2 = inr () →
            ∃ a, new cls' w1 w2 None ann tr c s = (inr (length s), s ++ [OArc a])
                 ∧ arc_class a = cls' ∧ src a = w1 ∧ dest a = w2
                 ∧ weight a = {[ Abstract := 1 ]}) as Hnew.
  { intros cls' w1 w2 H1 H2. eexists. rewrite new_returns by done.
    split; [done|]. simpl. by rewrite weight_converter_pmap. }
  split_and!.
  - intros r s' H.
    destruct (src_validator cls v1) as [e1|[]] eqn:H1.
    { rewrite new_raises in H by eauto. congruence. }
    destruct (dest_validator cls v2) as [e2|[]] eqn:H2.
    { rewrite new_raises in H by eauto. congruence. }
    destruct (Hnew cls v1 v2 H1 H2) as (a & Ha & ? & _ & _ & ?).
    rewrite Ha in H. injection H as <- <-.
    exists a. by rewrite lookup_new_object.
  - apply Hnew.
  - destruct (Hnew ArcPT VNone VNone) as (a & ? & _ & _ & _ & ?); eauto.
  - destruct (Hnew ArcTP VNone VNone) as (a & ? & _ & _ & _ & ?); eauto.
Qed.

(** ** The fragments on an arc in the store *)

Lemma Annotate_apply_to_arc_returns s r a (f : Annotate) :
  s !! r = Some (OArc a) → valid a →
  Annotate_apply_to_arc f r s
  = (inr (length s),
     s ++ [OArc {| arc_class := arc_class a; src := src a; dest := dest a;
                   weight := weight a; annotation := Some (text f);
                   transform := transform a;
                   completed := completed_default (arc_class a) |}]).
Proof.
  intros Hr [Hv1 Hv2]. unfold Annotate_apply_to_arc, mbind, M_bind.
  rewrite (load_arc _ _ _ Hr), new_returns by done.
  by rewrite weight_converter_pmap.
Qed.

Lemma TransformEach_apply_to_arc_returns s r a (g : TransformEach St) :
  s !! r = Some (OArc a) → valid a →
  TransformEach_apply_to_arc g r s
  = (inr (S (length s)),
     s ++ [OFunction g;
           OArc {| arc_class := arc_class a; src := src a; dest := dest a;
                   weight := weight a; annotation := annotation a;
                   transform := Some (TransformClosure (length s) g);
                   completed := completed_default (arc_class a) |}]).
Proof.
  intros Hr [Hv1 Hv2].
  unfold TransformEach_apply_to_arc, mbind, M_bind, new_object.
  rewrite (load_arc (s ++ [OFunction g]) r a) by by apply lookup_app_l_Some.
  rewrite new_returns by done.
  by rewrite weight_converter_pmap, length_app, Nat.add_1_r, <-app_assoc.
Qed.

Lemma lookup_second_new_object s (o1 o2 : Obj St) :
  (s ++ [o1; o2]) !! S (length s) = Some o2.
Proof.
  change (s ++ [o1; o2]) with (s ++ [o1] ++ [o2]). rewrite app_assoc.
  by rewrite <-(lookup_new_object (s ++ [o1])), length_app, Nat.add_1_r.
Qed.

(** ** The store stays valid

    Whatever an operator does, returning or raising, the arcs of the store
    it leaves satisfy their validators when those of the store it started
    in did. *)

Lemma store_valid_nil : store_valid ([] : list (Obj St)).
Proof. by intros r a. Qed.

Lemma store_valid_new_object s (o : Obj St) :
  store_valid s → (∀ a, o = OArc a → valid a) → store_valid (s ++ [o]).
Proof.
  intros Hs Ho r a. rewrite lookup_app_Some.
  intros [H|[_ H]]; [by eapply Hs|].
  apply list_lookup_singleton_Some in H as [_ ->]. by apply Ho.
Qed.

Lemma new_store_valid cls v1 v2 w ann tr c s res s' :
  new cls v1 v2 w ann tr c s = (res, s') → store_valid s → store_valid s'.
Proof.
  intros H Hs. destruct res as [e|r].
  - destruct (src_validator cls v1) as [e1|[]] eqn:H1.
    { rewrite new_raises in H by eauto. by injection H as _ <-. }
    destruct (dest_validator cls v2) as [e2|[]] eqn:H2.
    { rewrite new_raises in H by eauto. by injection H as _ <-. }
    by rewrite new_returns in H.
  - apply new_valid in H as (a & -> & _ & Ha & _).
    apply store_valid_new_object; [done|]. by intros ? [= <-].
Qed.

Lemma load_inv r s res s' :
  load r s = (res, s') →
  s' = s ∧ ((∃ a, res = inr a ∧ s !! r = Some (OArc a)) ∨ res = inl AttributeError).
Proof.
  unfold load. destruct (s !! r) as [[a|g]|]; intros [= <- <-]; eauto.
Qed.

Lemma apply_to_arc_store_valid n r s res s' :
  apply_to_arc n r s = (res, s') → store_valid s → store_valid s'.
Proof.
  destruct n as [| | |f|g|]; simpl; try by intros [= _ <-].
  - unfold Annotate_apply_to_arc, mbind, M_bind.
    destruct (load r s) as [[e|a] s1] eqn:Hl;
      apply load_inv in Hl as [-> _]; [by intros [= _ <-]|].
    apply new_store_valid.
  - unfold TransformEach_apply_to_arc, mbind, M_bind, new_object.
    intros H Hs.
    assert (store_valid (s ++ [OFunction g])) as Hs1
      by by apply store_valid_new_object.
    destruct (load r (s ++ [OFunction g])) as [[e|a] s1] eqn:Hl;
      apply load_inv in Hl as [-> _]; [by injection H as _ <-|].
    by eapply new_store_valid.
Qed.

Lemma shift_store_valid r n s res s' :
  rshift r n s = (res, s') ∨ lshift r n s = (res, s') →
  store_valid s → store_valid s'.
Proof.
  intros H Hs. unfold rshift, lshift, mbind, M_bind in H.
  destruct (load r s) as [[e|a] s1] eqn:Hl;
    apply load_inv in Hl as [-> Hl]; [by destruct H as [[= _ <-]|[= _ <-]]|].
  destruct Hl as [(? & [= <-] & Hr)|]; [|done].
  unfold ArcPT_rshift, ArcTP_rshift, ArcPT_lshift, ArcTP_lshift in H.
  destruct H as [H|H]; destruct (arc_class a); revert H;
    destruct (is_fragment n) eqn:Hn;
    try (intros H; by eapply apply_to_arc_store_valid);
    unfold mbind, M_bind; rewrite (load_arc _ _ _ Hr);
    (destruct (is_None _); [by intros [= _ <-]|]);
    intros H; by eapply new_store_valid.
Qed.

(** C9. Applying an [Annotate] to an arc of any class allocates a new arc
    of the same class whose annotation is the fragment's text and whose
    [src], [dest], [weight] and [transform] are the arc's; applying a
    [TransformEach] allocates the function [transform] and a new arc of the
    same class that holds it, with [src], [dest], [weight] and [annotation]
    the arc's.  The new arc of a completed class is completed, the object
    the fragment was applied to is still in the store as it was, and [>>]
    and [<<] with a fragment do the same. *)
Theorem apply_fragment_to_arc s r a (f : Annotate) (g : TransformEach St) :
  s !! r = Some (OArc a) →
  valid a →
  ∃ s1 s2 r1 r2 b1 b2,
    Annotate_apply_to_arc f r s = (inr r1, s1)
    ∧ TransformEach_apply_to_arc g r s = (inr r2, s2)
    ∧ rshift r (VAnnotate f) s = (inr r1, s1)
    ∧ lshift r (VAnnotate f) s = (inr r1, s1)
    ∧ rshift r (VTransformEach g) s = (inr r2, s2)
    ∧ lshift r (VTransformEach g) s = (inr r2, s2)
    ∧ s1 !! r1 = Some (OArc b1) ∧ s2 !! r2 = Some (OArc b2)
    ∧ b1 = {| arc_class := arc_class a; src := src a; dest := dest a;
              weight := weight a; annotation := Some (text f);
              transform := transform a;
              completed := completed_default (arc_class a) |}
    ∧ b2 = {| arc_class := arc_class a; src := src a; dest := dest a;
              weight := weight a; annotation := annotation a;
              transform := Some (TransformClosure (length s) g);
              completed := completed_default (arc_class a) |}
    ∧ (is_completed_class (arc_class a) = true →
       completed b1 = true ∧ completed b2 = true)
    ∧ r1 ≠ r ∧ r2 ≠ r
    ∧ s1 !! r = Some (OArc a) ∧ s2 !! r = Some (OArc a)
    ∧ (∀ i o, s !! i = Some o → s1 !! i = Some o ∧ s2 !! i = Some o).
Proof.
  intros Hr Hv.
  pose proof (Annotate_apply_to_arc_returns s r a f Hr Hv) as HA.
  pose proof (TransformEach_apply_to_arc_returns s r a g Hr Hv) as HT.
  destruct (shift_fragment s r a (VAnnotate f) Hr eq_refl) as [HR1 HL1].
  destruct (shift_fragment s r a (VTransformEach g) Hr eq_refl) as [HR2 HL2].
  simpl in HR1, HL1, HR2, HL2.
  pose proof (lookup_lt_Some _ _ _ Hr) as Hlt.
  do 6 eexists. split; [exact HA|]. split; [exact HT|].
  rewrite HR1, HL1, HR2, HL2. do 4 (split; [done|]).
  split; [apply lookup_new_object|].
  split; [apply lookup_second_new_object|].
  do 2 (split; [done|]).
  split. { intros Hc. by destruct (arc_class a). }
  split; [lia|]. split; [lia|].
  split; [by apply lookup_app_l_Some|]. split; [by apply lookup_app_l_Some|].
  intros i o Hi. split; by apply lookup_app_l_Some.
Qed.

End Builder.

Section Hashing.

Context {St : Type}.

Variable hash_tuple : PyVal St * PyVal St * gset (Color * Z) → Z.

Implicit Types (a b c : Arc St).

(** ** Hashing and equality *)

Lemma completed_class_by_src a b :
  is_completed_class (arc_class a) = true →
  is_completed_class (arc_class b) = true →
  valid a → valid b → src a = src b →
  arc_class a = arc_class b.
Proof.
  intros Ha Hb Hva Hvb Hs.
  destruct (valid_completed _ Hva Ha) as [H1 _].
  destruct (valid_completed _ Hvb Hb) as [H2 _].
  rewrite Hs in H1. revert Ha Hb H1 H2.
  by destruct (arc_class a), (arc_class b), (src b).
Qed.

Lemma set_add_completed elems a :
  is_completed_class (arc_class a) = true →
  set_add hash_tuple elems a
  = inr (if existsb
              (λ b, bool_decide (py_hash hash_tuple b
                                 = inr (__arc_hash__ hash_tuple a))
                    && attrs_eq b a) elems
         then elems else elems ++ [a]).
Proof.
  intros Ha. unfold set_add.
  assert (py_hash hash_tuple a = inr (__arc_hash__ hash_tuple a)) as ->.
  { unfold py_hash. by destruct (arc_class a). }
  simpl. by destruct (existsb _ elems).
Qed.

(** C2 (as amended). Two completed arcs with the same source, destination
    and weight are of the same class and have the same hash.  They are
    equal exactly when their annotation, transform and [completed] flag
    agree as well, and a set built from the two holds one element when they
    are equal and both when they are not. *)
Theorem same_endpoints_and_weight a b :
  is_completed_class (arc_class a) = true →
  is_completed_class (arc_class b) = true →
  valid a → valid b →
  src a = src b → dest a = dest b → weight a = weight b →
  arc_class a = arc_class b
  ∧ py_hash hash_tuple a = inr (__arc_hash__ hash_tuple a)
  ∧ py_hash hash_tuple b = py_hash hash_tuple a
  ∧ (attrs_eq a b = true
     ↔ annotation a = annotation b
       ∧ transform_eq (transform a) (transform b) = true
       ∧ completed a = completed b)
  ∧ py_set hash_tuple [a; b] = inr (if attrs_eq a b then [a] else [a; b]).
Proof.
  intros Ha Hb Hva Hvb Hs Hd Hw.
  pose proof (completed_class_by_src _ _ Ha Hb Hva Hvb Hs) as Hc.
  assert (py_hash hash_tuple a = inr (__arc_hash__ hash_tuple a)) as Hha.
  { unfold py_hash. by destruct (arc_class a). }
  assert (py_hash hash_tuple b = py_hash hash_tuple a) as Hhb.
  { unfold py_hash, __arc_hash__. by rewrite Hc, Hs, Hd, Hw. }
  split_and!; try done.
  - unfold attrs_eq. rewrite Hc, Hs, Hd, Hw, !py_eq_refl.
    rewrite !andb_true_iff, !bool_decide_eq_true. tauto.
  - unfold py_set. simpl.
    rewrite (set_add_completed [] a) by done. simpl.
    rewrite (set_add_completed [a] b) by done. simpl.
    assert (__arc_hash__ hash_tuple b = __arc_hash__ hash_tuple a) as ->.
    { unfold __arc_hash__. by rewrite Hs, Hd, Hw. }
    rewrite bool_decide_eq_true_2 by done.
    by destruct (attrs_eq a b).
Qed.

End Hashing.

(** ** Ordering *)

Section NameOrder.

Implicit Types (x y z : string) (k : string * string).

Lemma str_lt_spec x y : str_lt x y = true ↔ (x ≤ y)%string ∧ x ≠ y.
Proof.
  unfold str_lt, String.ltb, String.le, String.leb.
  destruct (String.compare x y) eqn:H; simpl.
  - apply String.compare_eq_iff in H. split; [done|]. by intros [_ []].
  - split; [|done]. intros _. split; [done|]. intros ->.
    pose proof (String.compare_antisym y y) as Hy. by rewrite H in Hy.
  - split; [done|]. by intros [[] _].
Qed.

Lemma str_lt_irrefl x : str_lt x x = false.
Proof.
  destruct (str_lt x x) eqn:H; [|done]. by apply str_lt_spec in H as [_ []].
Qed.

Lemma str_lt_trans x y z :
  str_lt x y = true → str_lt y z = true → str_lt x z = true.
Proof.
  rewrite !str_lt_spec. intros [H1 N1] [H2 N2]. split; [by etrans|].
  intros ->. apply N1. by apply (anti_symm String.le).
Qed.

Lemma str_lt_total x y : str_lt x y = true ∨ x = y ∨ str_lt y x = true.
Proof.
  destruct (decide (x = y)) as [->|N]; [by auto|].
  destruct (total String.le x y).
  - left. by apply str_lt_spec.
  - right. right. apply str_lt_spec. naive_solver.
Qed.

Lemma tuple_lt_lex k1 k2 : tuple_lt k1 k2 = true ↔ lex_lt k1 k2.
Proof.
  unfold tuple_lt, lex_lt. destruct k1 as [x1 x2], k2 as [y1 y2]; simpl.
  repeat case_bool_decide; subst; rewrite ?str_lt_irrefl;
    intuition congruence.
Qed.

Lemma lex_lt_irrefl k : ¬ lex_lt k k.
Proof. unfold lex_lt. rewrite !str_lt_irrefl. by intros [|[]]. Qed.

Lemma lex_lt_trans k1 k2 k3 : lex_lt k1 k2 → lex_lt k2 k3 → lex_lt k1 k3.
Proof.
  unfold lex_lt. intros [H1|[E1 H1]] [H2|[E2 H2]].
  - left. by eapply str_lt_trans.
  - left. by rewrite <-E2.
  - left. by rewrite E1.
  - right. split; [congruence|]. by eapply str_lt_trans.
Qed.

Lemma lex_lt_total k1 k2 : lex_lt k1 k2 ∨ k1 = k2 ∨ lex_lt k2 k1.
Proof.
  unfold lex_lt. destruct k1 as [x1 x2], k2 as [y1 y2]; simpl.
  destruct (str_lt_total x1 y1) as [?|[->|?]]; [by auto| |by auto].
  destruct (str_lt_total x2 y2) as [?|[->|?]]; by auto.
Qed.

End NameOrder.

Section Ordering.

Context {St : Type}.

Implicit Types (a b c : Arc St) (k : string * string).

Lemma completed_names a :
  is_completed_class (arc_class a) = true → valid a →
  ∃ k, names a = inr k.
Proof.
  intros Hc Hv. destruct (valid_completed _ Hv Hc) as [H1 H2].
  unfold names. destruct (src a), (dest a), (arc_class a); try done;
    by eexists.
Qed.

Lemma py_lt_names a b ka kb :
  is_completed_class (arc_class a) = true →
  names a = inr ka → names b = inr kb →
  py_lt a b = inr (tuple_lt ka kb).
Proof.
  intros Hc Ha Hb. unfold py_lt, __arc_lt__.
  revert Ha Hb. unfold names.
  destruct (getattr_name (src a)) as [|x1]; [done|].
  destruct (getattr_name (dest a)) as [|x2]; [done|].
  destruct (getattr_name (src b)) as [|y1]; [done|].
  destruct (getattr_name (dest b)) as [|y2]; [done|].
  intros [= <-] [= <-]. by destruct (arc_class a).
Qed.

(** C8. For completed arcs [a < b] returns, and it is true exactly when
    [(a.src.name, a.dest.name)] is lexicographically less than
    [(b.src.name, b.dest.name)].  The order is a strict total preorder of
    the completed arcs: no arc is below itself, [<] is transitive, and two
    arcs neither of which is below the other have the same pair of names. *)
Theorem completed_arcs_ordered_by_names a b c :
  is_completed_class (arc_class a) = true →
  is_completed_class (arc_class b) = true →
  is_completed_class (arc_class c) = true →
  valid a → valid b → valid c →
  ∃ ka kb,
    names a = inr ka ∧ names b = inr kb
    ∧ (∃ lt, py_lt a b = inr lt ∧ (lt = true ↔ lex_lt ka kb))
    ∧ py_lt a a = inr false
    ∧ (py_lt a b = inr true → py_lt b c = inr true → py_lt a c = inr true)
    ∧ (py_lt a b = inr true ∨ ka = kb ∨ py_lt b a = inr true).
Proof.
  intros Ha Hb Hc Hva Hvb Hvc.
  destruct (completed_names _ Ha Hva) as [ka Hka].
  destruct (completed_names _ Hb Hvb) as [kb Hkb].
  destruct (completed_names _ Hc Hvc) as [kc Hkc].
  exists ka, kb. split; [done|]. split; [done|].
  rewrite (py_lt_names a b ka kb), (py_lt_names a a ka ka),
    (py_lt_names b c kb kc), (py_lt_names a c ka kc),
    (py_lt_names b a kb ka) by done.
  split_and!.
  - eexists. split; [done|]. apply tuple_lt_lex.
  - f_equal. apply not_true_is_false. rewrite tuple_lt_lex. apply lex_lt_irrefl.
  - intros [= H1] [= H2]. f_equal. revert H1 H2. rewrite !tuple_lt_lex.
    apply lex_lt_trans.
  - destruct (lex_lt_total ka kb) as [H|[H|H]].
    + left. f_equal. by apply tuple_lt_lex.
    + by auto.
    + right. right. f_equal. by apply tuple_lt_lex.
Qed.

End Ordering.

Section Transforms.

Context {St : Type}.

Variable iter : TokenSet → list Token.

(** Iterating over a [frozenset] visits each of its elements once. *)
Hypothesis iter_enumerates : ∀ S : TokenSet, iter S ≡ₚ elements S.

Implicit Types (self : TransformEach St) (S R : TokenSet) (st : St).
Implicit Types (ts xs : list Token) (f : Token → Token).

Local Open Scope nat_scope.

Lemma length_iter S : length (iter S) = size S.
Proof. by rewrite (iter_enumerates S). Qed.

Lemma elem_of_iter S t : t ∈ iter S ↔ t ∈ S.
Proof. by rewrite (iter_enumerates S), elem_of_elements. Qed.

Lemma size_list_to_set_length xs :
  size (list_to_set xs : TokenSet) ≤ length xs
  ∧ (size (list_to_set xs : TokenSet) = length xs ↔ NoDup xs).
Proof.
  induction xs as [|x xs [IH1 IH2]].
  { rewrite list_to_set_nil, size_empty. split; [done|].
    split; [constructor|done]. }
  rewrite list_to_set_cons, NoDup_cons. cbn [length].
  destruct (decide (x ∈ xs)) as [Hx|Hx].
  - rewrite (subseteq_union_1_L {[x]} (list_to_set xs : TokenSet))
      by by apply singleton_subseteq_l, elem_of_list_to_set.
    split; [lia|]. split; [lia|tauto].
  - rewrite size_union, size_singleton
      by by rewrite disjoint_singleton_l, elem_of_list_to_set.
    split; [lia|]. rewrite <-IH2. split; [intros; split; [done|lia]|lia].
Qed.

Lemma transformed_tokens_each self ts st xs st' :
  transformed_tokens self ts st = (inr xs, st')
  ↔ each_called (fn self) ts st xs st'.
Proof.
  split.
  - revert st xs st'. induction ts as [|t ts IH]; intros st xs st'; simpl.
    { intros [= <- <-]. constructor. }
    unfold mbind, M_bind.
    destruct (fn_call (fn self) t st) as [[e|x] st1] eqn:Hx; [done|].
    destruct (transformed_tokens self ts st1) as [[e|xs'] st2] eqn:Hxs; [done|].
    intros [= <- <-]. econstructor; [done|by apply IH].
  - induction 1 as [|t ts x xs st st1 st2 Hx _ IH]; simpl; [done|].
    unfold mbind, M_bind. by rewrite Hx, IH.
Qed.

Lemma each_called_length (g : TokenFn St) ts st xs st' :
  each_called g ts st xs st' → length xs = length ts.
Proof. induction 1; simpl; congruence. Qed.

Lemma transformed_tokens_returns self ts st :
  (∀ t st0, ∃ x st1, fn_call (fn self) t st0 = (inr x, st1)) →
  ∃ xs st', transformed_tokens self ts st = (inr xs, st').
Proof.
  intros Hfn. revert st. induction ts as [|t ts IH]; intros st; simpl.
  { by do 2 eexists. }
  unfold mbind, M_bind. destruct (Hfn t st) as (x & st1 & ->).
  destruct (IH st1) as (xs & st2 & ->). by do 2 eexists.
Qed.

Lemma transformed_tokens_pure self f ts st :
  (∀ t st0, fn_call (fn self) t st0 = (inr (f t), st0)) →
  transformed_tokens self ts st = (inr (f <$> ts), st).
Proof.
  intros Hfn. induction ts as [|t ts IH]; simpl; [done|].
  unfold mbind, M_bind. by rewrite Hfn, IH.
Qed.

Lemma transform_returns_iff self S st R st' :
  TransformEach_transform iter self S st = (inr R, st')
  ↔ ∃ xs, transformed_tokens self (iter S) st = (inr xs, st')
          ∧ R = list_to_set xs.
Proof.
  unfold TransformEach_transform, mbind, M_bind.
  destruct (transformed_tokens self (iter S) st) as [[e|xs] st1].
  - split; [done|]. by intros (? & [=] & _).
  - split.
    + intros [= <- <-]. by eexists.
    + by intros (? & [= <- <-] & ->).
Qed.

Lemma NoDup_iter S : NoDup (iter S).
Proof. rewrite (iter_enumerates S). apply NoDup_elements. Qed.

Lemma list_to_set_fmap_iter f S :
  list_to_set (f <$> iter S) = (set_map f S : TokenSet).
Proof.
  apply set_eq. intros x.
  rewrite elem_of_map, elem_of_list_to_set, list_elem_of_fmap.
  by setoid_rewrite elem_of_iter.
Qed.

Lemma transform_pure self f S st :
  (∀ t st0, fn_call (fn self) t st0 = (inr (f t), st0)) →
  TransformEach_transform iter self S st = (inr (set_map f S), st).
Proof.
  intros Hfn. apply transform_returns_iff. exists (f <$> iter S).
  split; [by apply transformed_tokens_pure|].
  by rewrite list_to_set_fmap_iter.
Qed.

Lemma repeated_output_smaller xs i j x :
  i ≠ j → xs !! i = Some x → xs !! j = Some x →
  size (list_to_set xs : TokenSet) < length xs.
Proof.
  intros Hij Hi Hj. destruct (size_list_to_set_length xs) as [Hle Heq].
  destruct (decide (size (list_to_set xs : TokenSet) = length xs)) as [E|]; [|lia].
  apply Heq in E. destruct Hij. by eapply NoDup_lookup.
Qed.

(** C10. The function that [TransformEach(fn)] puts on an arc returns
    whenever every call of [fn] returns, and what it returns never has more
    elements than the token set it is given; it has fewer as soon as two
    calls of [fn] return the same token.  For an [fn] that is a function
    [f] of its argument the result is the image of the set under [f], and
    two distinct tokens with the same image make it smaller than the
    set. *)
Theorem transform_each_result_size self S st :
  ((∀ t st0, ∃ x st1, fn_call (fn self) t st0 = (inr x, st1)) →
   ∃ R st', TransformEach_transform iter self S st = (inr R, st'))
  ∧ (∀ R st',
       TransformEach_transform iter self S st = (inr R, st') →
       size R ≤ size S
       ∧ ∃ xs, each_called (fn self) (iter S) st xs st'
               ∧ R = list_to_set xs
               ∧ (∀ i j x, i ≠ j → xs !! i = Some x → xs !! j = Some x →
                           size R < size S))
  ∧ (∀ f, (∀ t st0, fn_call (fn self) t st0 = (inr (f t), st0)) →
          TransformEach_transform iter self S st = (inr (set_map f S), st)
          ∧ size (set_map f S : TokenSet) ≤ size S
          ∧ (∀ t1 t2, t1 ∈ S → t2 ∈ S → t1 ≠ t2 → f t1 = f t2 →
                      size (set_map f S : TokenSet) < size S)).
Proof.
  split_and!.
  - intros Hfn.
    destruct (transformed_tokens_returns self (iter S) st Hfn) as (xs & st' & H).
    exists (list_to_set xs), st'. apply transform_returns_iff. by exists xs.
  - intros R st' (xs & Hxs & ->)%transform_returns_iff.
    apply transformed_tokens_each in Hxs.
    pose proof (each_called_length _ _ _ _ _ Hxs) as Hlen.
    rewrite length_iter in Hlen.
    destruct (size_list_to_set_length xs) as [Hle _].
    split; [lia|]. exists xs. split; [done|]. split; [done|].
    intros i j x Hij Hi Hj. rewrite <-Hlen.
    by eapply repeated_output_smaller.
  - intros f Hfn. split; [by apply transform_pure|].
    rewrite <-list_to_set_fmap_iter, <-(length_iter S),
      <-(length_fmap f (iter S)).
    split; [apply size_list_to_set_length|].
    intros t1 t2 H1 H2 Hne Hf.
    apply elem_of_iter, list_elem_of_lookup in H1 as [i Hi].
    apply elem_of_iter, list_elem_of_lookup in H2 as [j Hj].
    apply (repeated_output_smaller _ i j (f t1)).
    + intros ->. congruence.
    + by rewrite list_lookup_fmap, Hi.
    + by rewrite list_lookup_fmap, Hj, Hf.
Qed.

(** C6 (as amended). The arc that [TransformEach(fn)] builds holds a
    function that calls [fn] once on each token of the set it is given and
    returns the set of the tokens those calls returned.  The result has as
    many elements as the input exactly when the calls returned pairwise
    different tokens: tokens on which [fn] returns the same token collapse
    into one.  For an [fn] that is a function [f] of its argument the
    result is the image of the set, of the same size when [f] is injective
    on the set. *)
Theorem transform_each_elementwise s r a self :
  s !! r = Some (OArc a) →
  valid a →
  ∃ r' s' b g,
    TransformEach_apply_to_arc self r s = (inr r', s')
    ∧ s' !! r' = Some (OArc b)
    ∧ transform b = Some g
    ∧ (∀ S st R st',
         call iter g S st = (inr R, st')
         ↔ ∃ xs, each_called (fn self) (iter S) st xs st'
                 ∧ R = list_to_set xs)
    ∧ (∀ S st xs st',
         each_called (fn self) (iter S) st xs st' →
         length xs = size S
         ∧ (∀ x, x ∈ (list_to_set xs : TokenSet) ↔ x ∈ xs)
         ∧ (size (list_to_set xs : TokenSet) = size S ↔ NoDup xs))
    ∧ (∀ f, (∀ t st0, fn_call (fn self) t st0 = (inr (f t), st0)) →
         ∀ S st,
           call iter g S st = (inr (set_map f S), st)
           ∧ (∀ x, x ∈ (set_map f S : TokenSet) ↔ ∃ t, x = f t ∧ t ∈ S)
           ∧ ((∀ t1 t2, t1 ∈ S → t2 ∈ S → f t1 = f t2 → t1 = t2) →
              size (set_map f S : TokenSet) = size S)).
Proof.
  intros Hr Hv. do 4 eexists.
  split; [by apply TransformEach_apply_to_arc_returns|].
  split; [apply lookup_second_new_object|]. split; [done|]. simpl.
  split_and!.
  - intros S st R st'. rewrite transform_returns_iff.
    by setoid_rewrite transformed_tokens_each.
  - intros S st xs st' Hxs.
    pose proof (each_called_length _ _ _ _ _ Hxs) as Hlen.
    rewrite length_iter in Hlen.
    split; [done|]. split; [intros x; apply elem_of_list_to_set|].
    rewrite <-Hlen. apply size_list_to_set_length.
  - intros f Hfn S st. split; [by apply transform_pure|].
    split; [intros x; apply elem_of_map|].
    intros Hinj. rewrite <-list_to_set_fmap_iter, <-(length_iter S),
      <-(length_fmap f (iter S)).
    apply size_list_to_set_length, NoDup_fmap_2_strong; [|apply NoDup_iter].
    intros t1 t2 H1%elem_of_iter H2%elem_of_iter. by apply Hinj.
Qed.

End Transforms.

(** * The properties on the sample objects *)

Section Samples.

Import Sample.

Local Open Scope nat_scope.

(** C1: [P >> T] is completed, and [(P >> T) >> U] does not raise
    [PetriNetArcIncomplete]: it is a new arc from [P] to [U]. *)
Lemma completed_arc_rshift_returns :
  is_completed_class (arc_class P_T) = true
  ∧ valid P_T
  ∧ rshift 0 (VTransition U) [OArc P_T]
    = (inr 1, [OArc P_T; OArc (arc CompletedArcPT (VPlace P) (VTransition U) None)]).
Proof. by repeat split. Qed.

Lemma completed_arc_shift_node_witness :
  rshift 0 (VTransition U) [OArc P_T]
  = (inr 1, [OArc P_T; OArc (arc CompletedArcPT (VPlace P) (VTransition U) None)])
  ∧ lshift 0 (VTransition U) [OArc P_T] = (inl TypeError, [OArc P_T]).
Proof.
  apply (completed_arc_shift_node [OArc P_T] 0 P_T (VTransition U));
    [reflexivity|reflexivity|split; reflexivity|reflexivity].
Defined.

(** C3: [ArcPT(src=P)] has its source and no destination, and [>>] with
    the place [Q] does not return a completed arc: it raises [TypeError]. *)
Lemma partial_arc_rshift_place :
  arc_class P_open = ArcPT
  ∧ src P_open = VPlace P
  ∧ dest P_open = VNone
  ∧ rshift 0 (VPlace Q) [OArc P_open] = (inl TypeError, [OArc P_open]).
Proof. by repeat split. Qed.

Lemma partial_arc_shift_node_witness :
  lshift 0 (VPlace Q) [OArc P_open]
  = (inl (PetriNetArcIncomplete "Cannot << to an arc not having a dest"),
     [OArc P_open])
  ∧ rshift 0 (VTransition T) [OArc P_open] = (inr 1, [OArc P_open; OArc P_T]).
Proof.
  destruct (partial_arc_shift_node [OArc P_open] 0 P_open (VPlace Q))
    as (_ & HL & _ & _);
    [reflexivity|reflexivity|split; reflexivity|reflexivity|].
  destruct (partial_arc_shift_node [OArc P_open] 0 P_open (VTransition T))
    as (_ & _ & HR & _);
    [reflexivity|reflexivity|split; reflexivity|reflexivity|].
  split; [by apply HL|by apply HR].
Defined.

(** C4 on two places and on two transitions. *)
Lemma completed_arc_endpoint_kinds_witness :
  new CompletedArcPT (VPlace P) (VPlace Q) None None None None ([] : list (Obj ()))
  = (inl TypeError, [])
  ∧ new CompletedArcTP (VTransition T) (VTransition U) None None None None
        ([] : list (Obj ()))
    = (inl TypeError, []).
Proof.
  destruct (@completed_arc_endpoint_kinds ()) as (HPT & HTP & _ & _).
  split; [apply HPT; by right|apply HTP; by right].
Defined.

(** C5 on [ArcPT(src=P) >> T] and [ArcPT(dest=T) << P]. *)
Lemma shift_directions_agree_witness :
  ∃ c1 c2 : Arc (),
    rshift 0 (VTransition T) [OArc P_open; OArc open_T]
    = (inr 2, [OArc P_open; OArc open_T; OArc c1])
    ∧ lshift 1 (VPlace P) [OArc P_open; OArc open_T; OArc c1]
      = (inr 3, [OArc P_open; OArc open_T; OArc c1; OArc c2])
    ∧ attrs_eq c1 c2 = true.
Proof.
  destruct (shift_directions_agree [OArc P_open; OArc open_T] 0 1
              P_open open_T P T)
    as [H _]; [reflexivity..|].
  destruct H as (c1 & c2 & H1 & H2 & _ & _ & _ & _ & _ & H3); [reflexivity..|].
  by exists c1, c2.
Defined.

(** C7 on [ArcTP(src=T)]. *)
Lemma default_weight_witness :
  ∃ a : Arc (),
    new ArcTP (VTransition T) VNone None None None None [] = (inr 0, [OArc a])
    ∧ weight a = {[ Abstract := 1%Z ]}.
Proof.
  destruct (default_weight_is_one_abstract (St:=()) ArcTP (VTransition T) VNone
              None None None [])
    as (_ & H & _ & _).
  destruct H as (a & Ha & _ & _ & _ & Hw); [reflexivity..|].
  by exists a.
Defined.

(** C9 on [(P >> T) >> Annotate("A0")]. *)
Lemma apply_fragment_to_arc_witness :
  rshift 0 (VAnnotate (mkAnnotate "A0")) [OArc P_T]
  = (inr 1, [OArc P_T; OArc P_T_noted]).
Proof.
  destruct (apply_fragment_to_arc [OArc P_T] 0 P_T (mkAnnotate "A0")
              (mkTransformEach same_token))
    as (s1 & s2 & r1 & r2 & b1 & b2 & HA & _ & HR & _);
    [reflexivity|split; reflexivity|].
  rewrite HR, <-HA. reflexivity.
Defined.

(** C2: [P >> T] and [P >> T >> Annotate("A0")] have the same source,
    destination and weight; they are not equal, and a set of the two holds
    both. *)
Lemma annotation_breaks_equality :
  src P_T = src P_T_noted
  ∧ dest P_T = dest P_T_noted
  ∧ weight P_T = weight P_T_noted
  ∧ attrs_eq P_T P_T_noted = false
  ∧ py_set hash_tuple [P_T; P_T_noted] = inr [P_T; P_T_noted].
Proof. by repeat split. Qed.

Lemma same_endpoints_and_weight_witness :
  py_hash hash_tuple P_T_noted = py_hash hash_tuple P_T
  ∧ py_set hash_tuple [P_T; P_T] = inr [P_T].
Proof.
  destruct (same_endpoints_and_weight hash_tuple P_T P_T_noted)
    as (_ & _ & Hh & _ & _);
    [reflexivity|reflexivity|split; reflexivity|split; reflexivity
    |reflexivity..|].
  destruct (same_endpoints_and_weight hash_tuple P_T P_T)
    as (_ & _ & _ & _ & Hs);
    [reflexivity|reflexivity|split; reflexivity|split; reflexivity
    |reflexivity..|].
  split; [exact Hh|exact Hs].
Defined.

(** C8 on the arcs of [test_sorts_by_src_name_then_dest_name]: [P >> T]
    is below [T >> P]. *)
Lemma completed_arcs_ordered_witness :
  py_lt P_T T_P = inr true ∧ py_lt T_P P_T = inr false.
Proof.
  destruct (completed_arcs_ordered_by_names P_T T_P P_T)
    as (ka & kb & Ha & Hb & _);
    [reflexivity|reflexivity|reflexivity
    |split; reflexivity|split; reflexivity|split; reflexivity|].
  by split.
Defined.

(** C6: the function that always returns [k0] maps the two tokens
    [{k1, k2}] to the single token [{k0}]. *)
Lemma constant_fn_collapses :
  size ({[ k1; k2 ]} : TokenSet) = 2
  ∧ TransformEach_transform elements (mkTransformEach always_k0) {[ k1; k2 ]} ()
    = (inr {[ k0 ]}, ())
  ∧ size ({[ k0 ]} : TokenSet) = 1.
Proof. by vm_compute. Qed.

Lemma transform_each_elementwise_witness :
  ∃ (b : Arc ()) g,
    TransformEach_apply_to_arc (mkTransformEach same_token) 0 [OArc P_T]
    = (inr 2, [OArc P_T; OFunction (mkTransformEach same_token); OArc b])
    ∧ transform b = Some g
    ∧ call elements g {[ k1; k2 ]} () = (inr {[ k1; k2 ]}, ()).
Proof.
  destruct (transform_each_elementwise elements (λ S, reflexivity _)
              [OArc P_T] 0 P_T (mkTransformEach same_token))
    as (r' & s' & b & g & H1 & H2 & H3 & _ & _ & H4);
    [reflexivity|split; reflexivity|].
  destruct (H4 id (λ _ _, eq_refl) {[ k1; k2 ]} ()) as (H5 & _ & _).
  exists b, g. rewrite H5. clear H4 H5.
  injection H1 as <- <-. injection H2 as <-.
  split; [reflexivity|]. split; [exact H3|]. by vm_compute.
Defined.

(** C10 on the function that always returns [k0]. *)
Lemma transform_each_result_size_witness :
  ∃ R, TransformEach_transform elements (mkTransformEach always_k0)
         {[ k1; k2 ]} () = (inr R, ())
       ∧ size R < size ({[ k1; k2 ]} : TokenSet).
Proof.
  destruct (transform_each_result_size elements (λ S, reflexivity _)
              (mkTransformEach always_k0) {[ k1; k2 ]} ())
    as (_ & _ & H).
  destruct (H (λ _, k0) (λ _ _, eq_refl)) as (HR & _ & Hlt).
  eexists. split; [exact HR|].
  apply (Hlt k1 k2); [by vm_compute|by vm_compute|done|done].
Defined.

(** ** The repository's tests on the sample objects *)

(** [test_is_hashable]: a set of [P >> T], [T >> P] and a second [T >> P]
    holds two arcs. *)
Example test_is_hashable :
  py_set hash_tuple [P_T; T_P; T_P] = inr [P_T; T_P].
Proof. reflexivity. Qed.

(** [test_cannot_overwrite_already_set_endpoints]: the four half-built arcs
    refuse a node on the end they already have. *)
Example test_cannot_overwrite_already_set_endpoints :
  rshift 0 (VPlace P) [OArc open_P]
  = (inl (PetriNetArcIncomplete "Cannot >> from an arc not having a src"),
     [OArc open_P])
  ∧ rshift 0 (VTransition T) [OArc open_T]
    = (inl (PetriNetArcIncomplete "Cannot >> from an arc not having a src"),
       [OArc open_T])
  ∧ lshift 0 (VPlace P) [OArc P_open]
    = (inl (PetriNetArcIncomplete "Cannot << to an arc not having a dest"),
       [OArc P_open])
  ∧ lshift 0 (VTransition T) [OArc T_open]
    = (inl (PetriNetArcIncomplete "Cannot << to an arc not having a dest"),
       [OArc T_open]).
Proof. by repeat split. Qed.

(** [test_lshift_equivalence], on [P >> T >> Annotate("A0")] and
    [T << P << Annotate("A0")]. *)
Example test_lshift_equivalence :
  ∃ s1 s2 (x y : Arc ()),
    (r ← rshift 0 (VTransition T); rshift r (VAnnotate (mkAnnotate "A0")))
      [OArc P_open; OArc open_T] = (inr 3, s1)
    ∧ (r ← lshift 1 (VPlace P); lshift r (VAnnotate (mkAnnotate "A0"))) s1
      = (inr 5, s2)
    ∧ s2 !! 3 = Some (OArc x) ∧ s2 !! 5 = Some (OArc y)
    ∧ attrs_eq x y = true.
Proof. do 4 eexists. by repeat split. Qed.

End Samples.

(** * Further properties of the builder *)

Section StoreDiscipline.

Context {St : Type}.

Implicit Types (a b : Arc St) (s : list (Obj St)) (r : Ref).
Implicit Types (cls : ArcClass) (n v : PyVal St) (d : Shift).

Local Open Scope nat_scope.

Lemma new_inv cls v1 v2 w ann tr c s res s' :
  new cls v1 v2 w ann tr c s = (res, s') →
  (res = inl TypeError ∧ s' = s)
  ∨ (∃ a, res = inr (length s) ∧ s' = s ++ [OArc a] ∧ valid a
          ∧ arc_class a = cls
          ∧ completed a = default (completed_default cls) c).
Proof.
  destruct (src_validator cls v1) as [e1|[]] eqn:H1.
  { rewrite new_raises by eauto. intros [= <- <-]. by left. }
  destruct (dest_validator cls v2) as [e2|[]] eqn:H2.
  { rewrite new_raises by eauto. intros [= <- <-]. by left. }
  rewrite new_returns by done. intros [= <- <-]. right.
  eexists. by repeat split.
Qed.

Lemma shift_not_arc d r n s :
  (∀ a, s !! r ≠ Some (OArc a)) → shift d r n s = (inl AttributeError, s).
Proof.
  intros Hr. destruct d; simpl; unfold rshift, lshift, mbind, M_bind, load;
    destruct (s !! r) as [[a|g]|]; try done; by destruct (Hr a).
Qed.

Lemma shift_arc d r a n s :
  s !! r = Some (OArc a) →
  shift d r n s
  = if is_fragment n then apply_to_arc n r s
    else match d with
         | Rshift =>
             if is_None (src a)
             then (inl (PetriNetArcIncomplete
                          "Cannot >> from an arc not having a src"), s)
             else new (completed_of (arc_class a)) (src a) n (Some (weight a))
                      (annotation a) (transform a) None s
         | Lshift =>
             if is_None (dest a)
             then (inl (PetriNetArcIncomplete
                          "Cannot << to an arc not having a dest"), s)
             else new (completed_of (arc_class a)) n (dest a) (Some (weight a))
                      (annotation a) (transform a) None s
         end.
Proof.
  intros Hr. destruct (is_fragment n) eqn:Hn.
  - destruct (shift_fragment s r a n Hr Hn). by destruct d.
  - destruct d; simpl; [by apply rshift_node|by apply lshift_node].
Qed.

Lemma apply_to_arc_inv n r a s res s' :
  s !! r = Some (OArc a) → is_fragment n = true →
  apply_to_arc n r s = (res, s') →
  (res = inl TypeError ∧ s `prefix_of` s')
  ∨ (∃ b, res = inr (pred (length s')) ∧ valid b
          ∧ arc_class b = arc_class a
          ∧ completed b = completed_default (arc_class a)
          ∧ (s' = s ++ [OArc b] ∨ ∃ g, s' = s ++ [OFunction g; OArc b])).
Proof.
  intros Hr Hn. destruct n as [| | |f|g|]; try done; simpl.
  - unfold Annotate_apply_to_arc, mbind, M_bind.
    rewrite (load_arc _ _ _ Hr).
    intros [[-> ->]|(b & -> & -> & Hb & Hc & Hf)]%new_inv; [by left|].
    right. exists b. rewrite length_app, Nat.add_1_r. simpl. eauto 10.
  - unfold TransformEach_apply_to_arc, mbind, M_bind, new_object.
    rewrite (load_arc (s ++ [OFunction g]) r a) by by apply lookup_app_l_Some.
    intros [[-> ->]|(b & -> & -> & Hb & Hc & Hf)]%new_inv.
    { left. split; [done|]. by apply prefix_app_r. }
    right. exists b. rewrite <-app_assoc, !length_app. simpl.
    replace (length s + 2) with (S (length s + 1)) by lia. simpl. eauto 10.
Qed.

(** X1. Whatever [>>] or [<<] is applied to, and whether it returns or
    raises, it only adds objects to the store and keeps the arcs of the
    store valid.  When it returns, its result is a new object, the one it
    made last, an arc whose [completed] flag is the one of its class, and of a
    completed class when the operand was not a fragment.  When it raises,
    the exception is [TypeError] or [PetriNetArcIncomplete], or
    [AttributeError] if it was not applied to an arc; with an operand that
    is not a fragment the store is then as it was. *)
Theorem shift_extends_store d r n s res s' :
  shift d r n s = (res, s') →
  s `prefix_of` s'
  ∧ (store_valid s → store_valid s')
  ∧ (∀ r', res = inr r' →
       S r' = length s'
       ∧ length s ≤ r'
       ∧ ∃ b, s' !! r' = Some (OArc b)
              ∧ completed b = completed_default (arc_class b)
              ∧ (is_fragment n = false →
                 is_completed_class (arc_class b) = true))
  ∧ (∀ e, res = inl e →
       (is_fragment n = false → s' = s)
       ∧ (e = TypeError
          ∨ (∃ msg, e = PetriNetArcIncomplete msg)
          ∨ (e = AttributeError ∧ ∀ a, s !! r ≠ Some (OArc a)))).
Proof.
  intros H.
  assert (store_valid s → store_valid s') as Hvalid.
  { apply (shift_store_valid r n s res s'). by destruct d; [left|right]. }
  assert ((∃ a, s !! r = Some (OArc a)) ∨ (∀ a, s !! r ≠ Some (OArc a)))
    as [[a Hr]|Hr].
  { destruct (s !! r) as [[a|g]|]; [by left; exists a|by right..]. }
  2:{ rewrite shift_not_arc in H by done.
      injection H as <- <-. split_and!; [done|done|done|].
      intros e [= <-]. split; [done|]. by right; right. }
  rewrite (shift_arc d r a n s Hr) in H.
  destruct (is_fragment n) eqn:Hn.
  - apply (apply_to_arc_inv n r a s res s' Hr Hn) in H
      as [[-> Hp]|(b & -> & Hb & Hc & Hf & Hs)].
    { split_and!; [done|done|done|]. intros e [= <-]. split; [done|by left]. }
    assert (s' !! pred (length s') = Some (OArc b) ∧ 0 < length s'
            ∧ length s ≤ pred (length s'))
      as (Hl & Hpos & Hnew).
    { destruct Hs as [->|[g ->]]; rewrite length_app; simpl.
      - rewrite Nat.add_1_r. simpl.
        split_and!; [apply lookup_new_object|lia|lia].
      - replace (length s + 2) with (S (S (length s))) by lia. simpl.
        split_and!; [apply lookup_second_new_object|lia|lia]. }
    split_and!; [|done| |done].
    { destruct Hs as [->|[g ->]]; by apply prefix_app_r. }
    intros r' [= <-]. split; [lia|]. split; [done|].
    exists b. rewrite Hf, Hc. by split_and!.
  - assert (is_completed_class (completed_of (arc_class a)) = true) as Hk
      by by destruct (arc_class a).
    assert (∀ w1 w2,
              new (completed_of (arc_class a)) w1 w2 (Some (weight a))
                  (annotation a) (transform a) None s = (res, s') →
              s `prefix_of` s'
              ∧ (∀ r', res = inr r' →
                   S r' = length s'
                   ∧ length s ≤ r'
                   ∧ ∃ b, s' !! r' = Some (OArc b)
                          ∧ completed b = completed_default (arc_class b)
                          ∧ (false = false →
                             is_completed_class (arc_class b) = true))
              ∧ (∀ e, res = inl e →
                   (false = false → s' = s)
                   ∧ (e = TypeError
                      ∨ (∃ msg, e = PetriNetArcIncomplete msg)
                      ∨ (e = AttributeError ∧ ∀ a, s !! r ≠ Some (OArc a)))))
      as Hnew.
    { intros w1 w2 [[-> ->]|(b & -> & -> & Hb & Hc & Hf)]%new_inv.
      - split_and!; [done|done|]. intros e [= <-]. split; [done|by left].
      - split_and!; [by apply prefix_app_r| |done].
        intros r' [= <-]. rewrite length_app, Nat.add_1_r.
        split; [done|]. split; [done|].
        exists b. rewrite lookup_new_object, Hf, Hc.
        by split_and!. }
    destruct d.
    + destruct (is_None (src a)).
      * injection H as <- <-. split_and!; [done|done|done|].
        intros e [= <-]. split; [done|]. right. left. by eexists.
      * destruct (Hnew _ _ H) as (? & ? & ?). by split_and!.
    + destruct (is_None (dest a)).
      * injection H as <- <-. split_and!; [done|done|done|].
        intros e [= <-]. split; [done|]. right. left. by eexists.
      * destruct (Hnew _ _ H) as (? & ? & ?). by split_and!.
Qed.

End StoreDiscipline.

Section Chaining.

Context {St : Type}.

Implicit Types (a b c : Arc St) (s : list (Obj St)) (r : Ref).
Implicit Types (cls : ArcClass) (n v : PyVal St) (d : Shift).
Implicit Types (steps : list (Shift * PyVal St)).

Local Open Scope nat_scope.

Lemma shift_all_cons d n steps r s :
  shift_all r ((d, n) :: steps) s
  = match shift d r n s with
    | (inr r1, s1) => shift_all r1 steps s1
    | (inl e, s1) => (inl e, s1)
    end.
Proof. done. Qed.

Lemma valid_same_ends a b :
  valid a → arc_class b = arc_class a → src b = src a → dest b = dest a →
  valid b.
Proof. intros [H1 H2] Hc Hs Hd. unfold valid. by rewrite Hc, Hs, Hd. Qed.

Lemma valid_completed_ends cls v1 v2 (w : ColorSet) ann tr (flag : bool) :
  is_completed_class cls = true →
  isinstance v1 (src_type cls) = true → isinstance v2 (dest_type cls) = true →
  valid (St:=St) {| arc_class := cls; src := v1; dest := v2; weight := w;
                    annotation := ann; transform := tr; completed := flag |}.
Proof.
  intros Hc H1 H2. split; simpl; destruct cls; try done;
    by apply instance_of_inr.
Qed.

Lemma shift_fragment_eq d r a n s :
  s !! r = Some (OArc a) → is_fragment n = true →
  shift d r n s = apply_to_arc n r s.
Proof. intros Hr Hn. by rewrite (shift_arc d r a n s Hr), Hn. Qed.

(** X2. A chain of fragments applied to an arc with [>>] and [<<], in any
    mix, always returns.  The arc it returns has the class, the two ends
    and the weight of the arc the chain started from; its annotation is the
    text of the last [Annotate] of the chain and its transform the function
    made for the last [TransformEach] (each kept from the start when the
    chain has none): a later fragment of a kind replaces an earlier one. *)
Theorem fragments_chain steps s r a :
  s !! r = Some (OArc a) →
  valid a →
  Forall (λ step, is_fragment step.2 = true) steps →
  ∃ r' s' b,
    shift_all r steps s = (inr r', s')
    ∧ s `prefix_of` s'
    ∧ s' !! r' = Some (OArc b)
    ∧ arc_class b = arc_class a
    ∧ src b = src a ∧ dest b = dest a ∧ weight b = weight a
    ∧ annotation b = match last_annotate steps.*2 with
                     | Some t => Some t
                     | None => annotation a
                     end
    ∧ match last_transform_each steps.*2 with
      | Some g => ∃ l, length s ≤ l ∧ transform b = Some (TransformClosure l g)
      | None => transform b = transform a
      end
    ∧ (steps ≠ [] → completed b = completed_default (arc_class a)).
Proof.
  intros Hr Hv Hsteps. revert s r a Hr Hv.
  induction Hsteps as [|[d n] steps Hn _ IH]; intros s r a Hr Hv.
  { exists r, s, a. by split_and!. }
  simpl in Hn. rewrite shift_all_cons, (shift_fragment_eq d r a n s Hr Hn).
  destruct n as [| | |f|g|]; try done; rewrite fmap_cons;
    cbn [apply_to_arc last_annotate last_transform_each snd].
  - rewrite (Annotate_apply_to_arc_returns s r a f Hr Hv).
    set (a1 := {| arc_class := arc_class a; src := src a; dest := dest a;
                  weight := weight a; annotation := Some (text f);
                  transform := transform a;
                  completed := completed_default (arc_class a) |}).
    destruct (IH (s ++ [OArc a1]) (length s) a1) as
      (r' & s' & b & Hrun & Hpre & Hb & Hc & Hs & Hd & Hw & Ha & Ht & Hf);
      [apply lookup_new_object|by eapply valid_same_ends|].
    simpl in Hc, Hs, Hd, Hw, Ha, Ht, Hf. exists r', s', b. rewrite Hrun.
    split; [done|]. split; [by eapply prefix_app_l|].
    split_and!; try done.
    + rewrite Ha. by destruct (last_annotate steps.*2).
    + destruct (last_transform_each steps.*2); [|done].
      destruct Ht as (l & Hl & Ht). exists l. split; [|done].
      rewrite length_app in Hl. lia.
    + intros _. destruct steps as [|step steps]; [|by apply Hf].
      injection Hrun as <- <-. rewrite lookup_new_object in Hb.
      by injection Hb as <-.
  - rewrite (TransformEach_apply_to_arc_returns s r a g Hr Hv).
    set (a1 := {| arc_class := arc_class a; src := src a; dest := dest a;
                  weight := weight a; annotation := annotation a;
                  transform := Some (TransformClosure (length s) g);
                  completed := completed_default (arc_class a) |}).
    destruct (IH (s ++ [OFunction g; OArc a1]) (S (length s)) a1) as
      (r' & s' & b & Hrun & Hpre & Hb & Hc & Hs & Hd & Hw & Ha & Ht & Hf);
      [apply lookup_second_new_object|by eapply valid_same_ends|].
    simpl in Hc, Hs, Hd, Hw, Ha, Ht, Hf. exists r', s', b. rewrite Hrun.
    split; [done|]. split; [by eapply prefix_app_l|].
    split_and!; try done.
    + rewrite Ha. by destruct (last_annotate steps.*2).
    + destruct (last_transform_each steps.*2).
      * destruct Ht as (l & Hl & Ht). exists l. split; [|done].
        rewrite length_app in Hl. lia.
      * by exists (length s).
    + intros _. destruct steps as [|step steps]; [|by apply Hf].
      injection Hrun as <- <-. rewrite lookup_second_new_object in Hb.
      by injection Hb as <-.
Qed.

(** X3. [>>] and [<<] on an arc accept nothing but nodes and fragments: with
    any other operand (a color, [None]) they raise, and change nothing:
    [PetriNetArcIncomplete] when the end the operator needs is missing,
    [TypeError] when it is there. *)
Theorem shift_other_operand d r a n s :
  s !! r = Some (OArc a) →
  is_node n = false →
  is_fragment n = false →
  shift d r n s
  = (inl match d with
         | Rshift =>
             if is_None (src a)
             then PetriNetArcIncomplete "Cannot >> from an arc not having a src"
             else TypeError
         | Lshift =>
             if is_None (dest a)
             then PetriNetArcIncomplete "Cannot << to an arc not having a dest"
             else TypeError
         end, s).
Proof.
  intros Hr Hnode Hfrag. rewrite (shift_arc d r a n s Hr), Hfrag.
  assert (∀ t, isinstance n t = false) as Hn by by destruct n, t.
  destruct d.
  - destruct (is_None (src a)); [done|]. apply new_raises. right.
    exists TypeError. destruct (arc_class a); by apply instance_of_inl.
  - destruct (is_None (dest a)); [done|]. apply new_raises. left.
    exists TypeError. destruct (arc_class a); by apply instance_of_inl.
Qed.

Lemma rshift_completes s r a n :
  s !! r = Some (OArc a) → valid a →
  is_None (src a) = false → isinstance n (dest_type (arc_class a)) = true →
  rshift r n s
  = (inr (length s),
     s ++ [OArc {| arc_class := completed_of (arc_class a); src := src a;
                   dest := n; weight := weight a; annotation := annotation a;
                   transform := transform a; completed := true |}]).
Proof.
  intros Hr Hv Hend Hn.
  assert (is_fragment n = false) as Hnf by by destruct n.
  rewrite (rshift_node s r a n Hr Hnf), Hend, new_completed
    by by destruct (arc_class a).
  assert (src_type (completed_of (arc_class a)) = src_type (arc_class a)
          ∧ dest_type (completed_of (arc_class a)) = dest_type (arc_class a))
    as [-> ->] by by destruct (arc_class a).
  by rewrite (valid_src a Hv Hend), Hn.
Qed.

Lemma lshift_completes s r a n :
  s !! r = Some (OArc a) → valid a →
  is_None (dest a) = false → isinstance n (src_type (arc_class a)) = true →
  lshift r n s
  = (inr (length s),
     s ++ [OArc {| arc_class := completed_of (arc_class a); src := n;
                   dest := dest a; weight := weight a;
                   annotation := annotation a;
                   transform := transform a; completed := true |}]).
Proof.
  intros Hr Hv Hend Hn.
  assert (is_fragment n = false) as Hnf by by destruct n.
  rewrite (lshift_node s r a n Hr Hnf), Hend, new_completed
    by by destruct (arc_class a).
  assert (src_type (completed_of (arc_class a)) = src_type (arc_class a)
          ∧ dest_type (completed_of (arc_class a)) = dest_type (arc_class a))
    as [-> ->] by by destruct (arc_class a).
  by rewrite (valid_dest a Hv Hend), Hn.
Qed.

(** X4. An annotation can be given before or after the arc is completed:
    [arc >> Annotate(text) >> node] and [arc >> node >> Annotate(text)]
    return equal completed arcs that carry the text, and likewise with
    [<<]. *)
Theorem annotate_then_complete s r a (f : Annotate) n :
  s !! r = Some (OArc a) →
  valid a →
  (is_None (src a) = false →
   isinstance n (dest_type (arc_class a)) = true →
   ∃ r1 s1 c1 r2 s2 c2,
     shift_all r [(Rshift, VAnnotate f); (Rshift, n)] s = (inr r1, s1)
     ∧ s1 !! r1 = Some (OArc c1)
     ∧ shift_all r [(Rshift, n); (Rshift, VAnnotate f)] s = (inr r2, s2)
     ∧ s2 !! r2 = Some (OArc c2)
     ∧ attrs_eq c1 c2 = true
     ∧ is_completed_class (arc_class c1) = true
     ∧ dest c1 = n
     ∧ annotation c1 = Some (text f))
  ∧ (is_None (dest a) = false →
     isinstance n (src_type (arc_class a)) = true →
     ∃ r1 s1 c1 r2 s2 c2,
       shift_all r [(Lshift, VAnnotate f); (Lshift, n)] s = (inr r1, s1)
       ∧ s1 !! r1 = Some (OArc c1)
       ∧ shift_all r [(Lshift, n); (Lshift, VAnnotate f)] s = (inr r2, s2)
       ∧ s2 !! r2 = Some (OArc c2)
       ∧ attrs_eq c1 c2 = true
       ∧ is_completed_class (arc_class c1) = true
       ∧ src c1 = n
       ∧ annotation c1 = Some (text f)).
Proof.
  intros Hr Hv.
  assert (is_completed_class (completed_of (arc_class a)) = true
          ∧ completed_default (completed_of (arc_class a)) = true
          ∧ src_type (completed_of (arc_class a)) = src_type (arc_class a)
          ∧ dest_type (completed_of (arc_class a)) = dest_type (arc_class a))
    as (Hk & Hcd & Hst & Hdt) by by destruct (arc_class a).
  pose proof (Annotate_apply_to_arc_returns s r a f Hr Hv) as HA.
  set (a1 := {| arc_class := arc_class a; src := src a; dest := dest a;
                weight := weight a; annotation := Some (text f);
                transform := transform a;
                completed := completed_default (arc_class a) |}) in HA.
  assert (valid a1) as Hv1 by by eapply valid_same_ends.
  split; intros Hend Hn.
  - pose proof (valid_src a Hv Hend) as Hsrc.
    set (c0 := {| arc_class := completed_of (arc_class a); src := src a;
                  dest := n; weight := weight a; annotation := annotation a;
                  transform := transform a; completed := true |}).
    assert (valid c0) as Hv0
      by (apply valid_completed_ends; by rewrite ?Hst, ?Hdt).
    set (c1 := {| arc_class := completed_of (arc_class a); src := src a;
                  dest := n; weight := weight a;
                  annotation := Some (text f);
                  transform := transform a; completed := true |}).
    set (c2 := {| arc_class := completed_of (arc_class a); src := src a;
                  dest := n; weight := weight a;
                  annotation := Some (text f); transform := transform a;
                  completed := completed_default (completed_of (arc_class a)) |}).
    exists (S (length s)), (s ++ [OArc a1] ++ [OArc c1]), c1,
      (S (length s)), (s ++ [OArc c0] ++ [OArc c2]), c2.
    split_and!.
    + rewrite !shift_all_cons. cbn [shift].
      rewrite (proj1 (shift_fragment s r a (VAnnotate f) Hr eq_refl)).
      cbn [apply_to_arc]. rewrite HA, shift_all_cons. cbn [shift].
      rewrite (rshift_completes (s ++ [OArc a1]) (length s) a1 n)
        by (done || apply lookup_new_object).
      by rewrite length_app, Nat.add_1_r, <-app_assoc.
    + apply lookup_second_new_object.
    + rewrite !shift_all_cons. cbn [shift].
      rewrite (rshift_completes s r a n) by done. fold c0.
      rewrite shift_all_cons. cbn [shift].
      rewrite (proj1 (shift_fragment (s ++ [OArc c0]) (length s) c0
                        (VAnnotate f) (lookup_new_object _ _) eq_refl)).
      cbn [apply_to_arc].
      rewrite (Annotate_apply_to_arc_returns (s ++ [OArc c0]) (length s) c0 f)
        by (done || apply lookup_new_object).
      by rewrite length_app, Nat.add_1_r, <-app_assoc.
    + apply lookup_second_new_object.
    + unfold c2. rewrite Hcd. apply attrs_eq_refl.
    + done.
    + done.
    + done.
  - pose proof (valid_dest a Hv Hend) as Hdest.
    set (c0 := {| arc_class := completed_of (arc_class a); src := n;
                  dest := dest a; weight := weight a;
                  annotation := annotation a;
                  transform := transform a; completed := true |}).
    assert (valid c0) as Hv0
      by (apply valid_completed_ends; by rewrite ?Hst, ?Hdt).
    set (c1 := {| arc_class := completed_of (arc_class a); src := n;
                  dest := dest a; weight := weight a;
                  annotation := Some (text f);
                  transform := transform a; completed := true |}).
    set (c2 := {| arc_class := completed_of (arc_class a); src := n;
                  dest := dest a; weight := weight a;
                  annotation := Some (text f); transform := transform a;
                  completed := completed_default (completed_of (arc_class a)) |}).
    exists (S (length s)), (s ++ [OArc a1] ++ [OArc c1]), c1,
      (S (length s)), (s ++ [OArc c0] ++ [OArc c2]), c2.
    split_and!.
    + rewrite !shift_all_cons. cbn [shift].
      rewrite (proj2 (shift_fragment s r a (VAnnotate f) Hr eq_refl)).
      cbn [apply_to_arc]. rewrite HA, shift_all_cons. cbn [shift].
      rewrite (lshift_completes (s ++ [OArc a1]) (length s) a1 n)
        by (done || apply lookup_new_object).
      by rewrite length_app, Nat.add_1_r, <-app_assoc.
    + apply lookup_second_new_object.
    + rewrite !shift_all_cons. cbn [shift].
      rewrite (lshift_completes s r a n) by done. fold c0.
      rewrite shift_all_cons. cbn [shift].
      rewrite (proj2 (shift_fragment (s ++ [OArc c0]) (length s) c0
                        (VAnnotate f) (lookup_new_object _ _) eq_refl)).
      cbn [apply_to_arc].
      rewrite (Annotate_apply_to_arc_returns (s ++ [OArc c0]) (length s) c0 f)
        by (done || apply lookup_new_object).
      by rewrite length_app, Nat.add_1_r, <-app_assoc.
    + apply lookup_second_new_object.
    + unfold c2. rewrite Hcd. apply attrs_eq_refl.
    + done.
    + done.
    + done.
Qed.

End Chaining.

Section EqualityContract.

Context {St : Type}.

Variable hash_tuple : PyVal St * PyVal St * gset (Color * Z) → Z.

Implicit Types (a b c : Arc St) (s : list (Obj St)) (r : Ref).
Implicit Types (v w u : PyVal St) (f g h : Callable St).

Local Open Scope nat_scope.

Lemma py_eq_sym v w : py_eq v w = true → py_eq w v = true.
Proof.
  destruct v, w; simpl; try done; rewrite !bool_decide_eq_true; congruence.
Qed.

Lemma py_eq_trans v w u : py_eq v w = true → py_eq w u = true → py_eq v u = true.
Proof.
  destruct v, w, u; simpl; try done; rewrite !bool_decide_eq_true; congruence.
Qed.

Lemma callable_is_sym f g : callable_is f g = true → callable_is g f = true.
Proof.
  destruct f, g; simpl; try done; rewrite !bool_decide_eq_true; congruence.
Qed.

Lemma callable_is_trans f g h :
  callable_is f g = true → callable_is g h = true → callable_is f h = true.
Proof.
  destruct f, g, h; simpl; try done; rewrite !bool_decide_eq_true; congruence.
Qed.

Lemma transform_eq_sym (f g : option (Callable St)) :
  transform_eq f g = true → transform_eq g f = true.
Proof. destruct f, g; simpl; try done. apply callable_is_sym. Qed.

Lemma transform_eq_trans (f g h : option (Callable St)) :
  transform_eq f g = true → transform_eq g h = true → transform_eq f h = true.
Proof. destruct f, g, h; simpl; try done. apply callable_is_trans. Qed.

Lemma py_eq_end cls v w :
  (src_validator cls v = inr () ∨ dest_validator cls v = inr ()) →
  py_eq v w = true → v = w.
Proof.
  intros Hv. destruct v, w; simpl; try done;
    try (rewrite bool_decide_eq_true; congruence);
    destruct cls, Hv; done.
Qed.

Lemma attrs_eq_spec a b :
  attrs_eq a b = true
  ↔ arc_class a = arc_class b
    ∧ py_eq (src a) (src b) = true
    ∧ py_eq (dest a) (dest b) = true
    ∧ weight a = weight b
    ∧ annotation a = annotation b
    ∧ transform_eq (transform a) (transform b) = true
    ∧ completed a = completed b.
Proof.
  unfold attrs_eq. rewrite !andb_true_iff, !bool_decide_eq_true. tauto.
Qed.

(** X5. [==] on arcs is an equivalence relation, and it agrees with
    [__hash__]: two equal arcs have the same endpoints and weight, so
    [hash] gives the same result on both. *)
Theorem arc_equality_and_hash a b c :
  attrs_eq a a = true
  ∧ (attrs_eq a b = true → attrs_eq b a = true)
  ∧ (attrs_eq a b = true → attrs_eq b c = true → attrs_eq a c = true)
  ∧ (valid a → attrs_eq a b = true →
     src a = src b ∧ dest a = dest b
     ∧ py_hash hash_tuple a = py_hash hash_tuple b).
Proof.
  split_and!.
  - apply attrs_eq_refl.
  - rewrite !attrs_eq_spec. intros (? & ? & ? & ? & ? & ? & ?).
    split_and!; try done; by (apply py_eq_sym || apply transform_eq_sym).
  - rewrite !attrs_eq_spec.
    intros (? & ? & ? & ? & ? & ? & ?) (? & ? & ? & ? & ? & ? & ?).
    split_and!; try congruence;
      by (eapply py_eq_trans || eapply transform_eq_trans).
  - intros [Hv1 Hv2] (Hc & Hs & Hd & Hw & _)%attrs_eq_spec.
    apply (py_eq_end (arc_class a)) in Hs; [|by left].
    apply (py_eq_end (arc_class a)) in Hd; [|by right].
    split; [done|]. split; [done|].
    unfold py_hash, __arc_hash__. by rewrite Hc, Hs, Hd, Hw.
Qed.

(** X6. Every application of a [TransformEach] makes a function of its own,
    and functions are equal only to themselves: applying the same fragment
    twice to one arc gives two arcs that agree in every field but
    [transform] and are not equal.  When the arc is completed the two have
    the same hash and a set keeps both. *)
Theorem transform_each_twice s r a (g : TransformEach St) :
  s !! r = Some (OArc a) →
  valid a →
  ∃ r1 s1 b1 r2 s2 b2,
    TransformEach_apply_to_arc g r s = (inr r1, s1)
    ∧ TransformEach_apply_to_arc g r s1 = (inr r2, s2)
    ∧ s2 !! r1 = Some (OArc b1) ∧ s2 !! r2 = Some (OArc b2)
    ∧ arc_class b1 = arc_class b2
    ∧ src b1 = src b2 ∧ dest b1 = dest b2 ∧ weight b1 = weight b2
    ∧ annotation b1 = annotation b2 ∧ completed b1 = completed b2
    ∧ transform_eq (transform b1) (transform b2) = false
    ∧ attrs_eq b1 b2 = false
    ∧ (is_completed_class (arc_class a) = true →
       py_hash hash_tuple b1 = py_hash hash_tuple b2
       ∧ py_set hash_tuple [b1; b2] = inr [b1; b2]).
Proof.
  intros Hr Hv.
  set (s1 := s ++ [OFunction g;
                   OArc {| arc_class := arc_class a; src := src a;
                           dest := dest a; weight := weight a;
                           annotation := annotation a;
                           transform := Some (TransformClosure (length s) g);
                           completed := completed_default (arc_class a) |}]).
  assert (TransformEach_apply_to_arc g r s = (inr (S (length s)), s1)) as H1
    by by apply TransformEach_apply_to_arc_returns.
  assert (s1 !! r = Some (OArc a)) as Hr1 by by apply lookup_app_l_Some.
  pose proof (TransformEach_apply_to_arc_returns s1 r a g Hr1 Hv) as H2.
  assert (length s1 = S (S (length s))) as Hlen.
  { unfold s1. rewrite length_app. simpl. lia. }
  do 6 eexists. split; [exact H1|]. split; [exact H2|].
  split.
  { apply lookup_app_l_Some. apply lookup_second_new_object. }
  split; [apply lookup_second_new_object|].
  do 6 (split; [done|]).
  assert (transform_eq (Some (TransformClosure (length s) g))
                       (Some (TransformClosure (length s1) g)) = false) as Ht.
  { simpl. apply bool_decide_eq_false. lia. }
  assert (∀ b1 b2 : Arc St,
            transform_eq (transform b1) (transform b2) = false →
            attrs_eq b1 b2 = false) as Hne.
  { intros b1 b2 Hf. apply not_true_is_false.
    intros (_ & _ & _ & _ & _ & Ht' & _)%attrs_eq_spec. congruence. }
  split; [done|]. split; [by apply Hne|].
  intros Hc. split.
  { unfold py_hash. simpl. by destruct (arc_class a). }
  unfold py_set. simpl.
  rewrite (set_add_completed hash_tuple []) by done. simpl.
  rewrite (set_add_completed hash_tuple [_]) by done. simpl.
  by rewrite Hne, andb_false_r.
Qed.

End EqualityContract.

Section OrderingEdges.

Context {St : Type}.

Implicit Types (a b : Arc St) (k : string * string).

Lemma names_node_iff b :
  (∃ k, names b = inr k) ↔ is_node (src b) = true ∧ is_node (dest b) = true.
Proof.
  unfold names. destruct (src b), (dest b); simpl;
    (split; [intros [k ?]; by split|intros [? ?]; try done; by eexists]).
Qed.

Lemma names_not_node b :
  is_node (src b) = false ∨ is_node (dest b) = false →
  names b = inl AttributeError.
Proof. unfold names. destruct (src b), (dest b); simpl; by intros [|]. Qed.

(** X7. [a < b] is defined on completed arcs only, and needs both ends of
    [b]: when [a] is an [ArcPT] or [ArcTP] it raises [TypeError]; when [a]
    is completed it returns if both ends of [b] are nodes and raises
    [AttributeError] if one of them is [None]. *)
Theorem arc_lt_errors a b :
  (is_completed_class (arc_class a) = false → py_lt a b = inl TypeError)
  ∧ (is_completed_class (arc_class a) = true → valid a →
     (is_node (src b) = true → is_node (dest b) = true →
      ∃ lt, py_lt a b = inr lt)
     ∧ (is_node (src b) = false ∨ is_node (dest b) = false →
        py_lt a b = inl AttributeError)).
Proof.
  split.
  { intros Hc. unfold py_lt. by destruct (arc_class a). }
  intros Hc Hv. destruct (completed_names a Hc Hv) as [ka Hka]. split.
  - intros Hs Hd. destruct (proj2 (names_node_iff b)) as [kb Hkb]; [done|].
    eexists. by apply py_lt_names.
  - intros Hb%names_not_node. unfold py_lt, __arc_lt__, names in *.
    destruct (arc_class a); try done;
      destruct (getattr_name (src a)) as [|x1]; try done;
      destruct (getattr_name (dest a)) as [|x2]; try done;
      destruct (getattr_name (src b)) as [|y1]; simpl in *; try done;
      destruct (getattr_name (dest b)) as [|y2]; simpl in *;
      first [congruence|discriminate Hb].
Qed.

(** X8. The order of completed arcs is asymmetric and looks at the names of
    the ends only: replacing an arc by one whose ends have the same names
    changes no comparison, so two arcs between nodes of the same names tie,
    whatever their weights, annotations and nodes are. *)
Theorem arc_lt_names_only a b a' b' :
  is_completed_class (arc_class a) = true →
  is_completed_class (arc_class b) = true →
  is_completed_class (arc_class a') = true →
  is_completed_class (arc_class b') = true →
  valid a → valid b → valid a' → valid b' →
  (py_lt a b = inr true → py_lt b a = inr false)
  ∧ (names a = names a' → names b = names b' → py_lt a b = py_lt a' b')
  ∧ (names a = names b → py_lt a b = inr false ∧ py_lt b a = inr false).
Proof.
  intros Ha Hb Ha' Hb' Hva Hvb Hva' Hvb'.
  destruct (completed_names a Ha Hva) as [ka Hka].
  destruct (completed_names b Hb Hvb) as [kb Hkb].
  destruct (completed_names a' Ha' Hva') as [ka' Hka'].
  destruct (completed_names b' Hb' Hvb') as [kb' Hkb'].
  rewrite (py_lt_names a b ka kb), (py_lt_names b a kb ka),
    (py_lt_names a' b' ka' kb') by done.
  rewrite Hka, Hkb, Hka', Hkb'.
  assert (∀ k, tuple_lt k k = false) as Hirr.
  { intros k. apply not_true_is_false. rewrite tuple_lt_lex.
    apply lex_lt_irrefl. }
  split_and!.
  - intros [= H]. f_equal. apply not_true_is_false. intros H'.
    apply tuple_lt_lex in H, H'. apply (lex_lt_irrefl ka).
    by eapply lex_lt_trans.
  - by intros [= <-] [= <-].
  - intros [= <-]. by rewrite Hirr.
Qed.

End OrderingEdges.

Section TransformEdges.

Context {St : Type}.

Variable iter : TokenSet → list Token.

Hypothesis iter_enumerates : ∀ S : TokenSet, iter S ≡ₚ elements S.

(** A second iteration order. *)
Variable iter' : TokenSet → list Token.

Hypothesis iter'_enumerates : ∀ S : TokenSet, iter' S ≡ₚ elements S.

Implicit Types (self : TransformEach St) (S R : TokenSet) (st : St).
Implicit Types (ts xs pre post : list Token) (f : Token → Token).

Local Open Scope nat_scope.






Lemma transformed_tokens_read_only self f ts st :
  (∀ t, fn_call (fn self) t st = (inr (f t), st)) →
  transformed_tokens self ts st = (inr (f <$> ts), st).
Proof.
  intros Hfn. induction ts as [|t ts IH]; simpl; [done|].
  unfold mbind, M_bind. by rewrite Hfn, IH.
Qed.

(** X11. When the calls of [fn] in a state return and leave that state as
    it is, the order in which the token set is iterated does not matter:
    under any two orders the function of [TransformEach(fn)] returns the
    image of the set and leaves the state as it is. *)
Theorem transform_each_any_order self f S st :
  (∀ t, fn_call (fn self) t st = (inr (f t), st)) →
  TransformEach_transform iter self S st = (inr (set_map f S), st)
  ∧ TransformEach_transform iter' self S st = (inr (set_map f S), st).
Proof.
  intros Hfn. unfold TransformEach_transform, mbind, M_bind.
  rewrite !(transformed_tokens_read_only self f) by done.
  unfold mret, M_ret.
  by rewrite (list_to_set_fmap_iter iter iter_enumerates),
    (list_to_set_fmap_iter iter' iter'_enumerates).
Qed.

End TransformEdges.

Section Repr.

Context {St : Type}.

Variable repr : PyVal St → string.
Variable colorset_string : ColorSet → string.
Variable ARROW : string.

Implicit Types (a b : Arc St) (x y z : string).


Lemma str_app_nil_r x : x +:+ "" = x.
Proof.
  induction x as [|c x IH]; [done|].
  change (String c (x +:+ "") = String c x). by rewrite IH.
Qed.


End Repr.

(** * The callables of the example and of the tests *)

Section TokenCallables.

Implicit Types (h : TokenHeap) (t : Token) (o : TokenObject).

Local Open Scope nat_scope.

Lemma token_object_live h t o :
  h !! token_id t = Some o → token_object t h = (inr o, h).
Proof. intros H. unfold token_object. by rewrite H. Qed.




End TokenCallables.

Section CounterArc.

Import Figure_1_12.

Variable iter : TokenSet → list Token.

Hypothesis iter_enumerates : ∀ S : TokenSet, iter S ≡ₚ elements S.

Implicit Types (h : TokenHeap) (t : Token) (o : TokenObject) (S R : TokenSet).
Implicit Types (ts : list Token) (os : list TokenObject).

Local Open Scope nat_scope.





(** X15. The guard [counter_x_gt_0] changes nothing.  On tokens whose
    counters all have an [x] it returns, and it is true exactly when every
    counter has a positive [x]; tokens of other colors do not matter.  It
    stops at the first counter whose [x] is not positive: it is false then
    whatever comes after, and it raises [KeyError] at a counter without
    [x] only when no such counter came before. *)
Theorem counter_x_gt_0_decides inputs h :
  (∀ res h', counter_x_gt_0 inputs h = (res, h') → h' = h)
  ∧ (Forall (λ t, is_Some (h !! token_id t)) inputs →
     Forall (λ t, is_counter h t → is_Some (x_of h t)) inputs →
     ∃ b, counter_x_gt_0 inputs h = (inr b, h)
          ∧ (b = true
             ↔ Forall (λ t, is_counter h t →
                            ∃ x, x_of h t = Some x ∧ (0 < x)%Z) inputs))
  ∧ (∀ pre t post,
       inputs = pre ++ t :: post →
       Forall (λ t, is_Some (h !! token_id t)) pre →
       Forall (λ t, is_counter h t →
                    ∃ x, x_of h t = Some x ∧ (0 < x)%Z) pre →
       is_counter h t →
       (∀ x, x_of h t = Some x → (x ≤ 0)%Z →
             counter_x_gt_0 inputs h = (inr false, h))
       ∧ (x_of h t = None → counter_x_gt_0 inputs h = (inl KeyError, h))).
Proof.
  split_and!.
  - induction inputs as [|t inputs IH]; intros res h'; simpl.
    { by intros [= _ <-]. }
    unfold mbind, M_bind, token_object.
    destruct (h !! token_id t) as [o|]; [|by intros [= _ <-]].
    destruct (bool_decide (token_color o = Counter)); [|apply IH].
    destruct (token_data o !! "x") as [x|]; [|by intros [= _ <-]].
    destruct (bool_decide (0 < x)%Z); [apply IH|by intros [= _ <-]].
  - induction inputs as [|t inputs IH]; intros Hlive Hx; simpl.
    { exists true. split; [done|]. split; [by constructor|done]. }
    apply Forall_cons in Hlive as [[o Ho] Hlive].
    apply Forall_cons in Hx as [Hxt Hx].
    destruct (IH Hlive Hx) as (b & Hrun & Hb).
    unfold mbind, M_bind. rewrite (token_object_live h t o Ho).
    assert (is_counter h t ↔ token_color o = Counter) as Hct.
    { unfold is_counter. split; [intros (o' & Ho' & ?); congruence|by exists o]. }
    assert (x_of h t = token_data o !! "x") as Hxo
      by (unfold x_of; by rewrite Ho).
    rewrite Hct, Hxo in Hxt.
    case_bool_decide as Hc.
    + destruct (Hxt Hc) as [x Hxv]. rewrite Hxv.
      case_bool_decide as Hpos.
      * exists b. split; [done|]. rewrite Forall_cons, Hb, Hxo, Hxv.
        split; [|by intros [_ ?]].
        intros Hall. split; [|done]. intros _. by exists x.
      * exists false. split; [done|]. split; [done|].
        rewrite Forall_cons, Hct, Hxo, Hxv.
        intros [Hcontra _]. destruct (Hcontra Hc) as (x' & [= <-] & ?). done.
    + exists b. split; [done|]. rewrite Forall_cons, Hb, Hct.
      split; [|by intros [_ ?]].
      intros Hall. split; [|done]. intros ?. done.
  - intros pre t post -> Hlive Hpos Hc.
    induction pre as [|p pre IH]; simpl.
    + destruct Hc as (o & Ho & Hc). unfold mbind, M_bind, x_of.
      rewrite (token_object_live h t o Ho), Ho, bool_decide_eq_true_2 by done.
      simpl. split.
      * intros x -> Hx. by rewrite bool_decide_eq_false_2 by lia.
      * by intros ->.
    + apply Forall_cons in Hlive as [[o Ho] Hlive].
      apply Forall_cons in Hpos as [Hp Hpos].
      specialize (IH Hlive Hpos).
      unfold mbind, M_bind. rewrite (token_object_live h p o Ho).
      case_bool_decide as Hcp; [|done].
      destruct Hp as (x & Hx & Hgt); [by exists o|].
      unfold x_of in Hx. rewrite Ho in Hx. simpl in Hx. rewrite Hx.
      by rewrite bool_decide_eq_true_2.
Qed.

End CounterArc.

Section TestCallables.

Import Test_arc.

Implicit Types (h : TokenHeap) (t : Token) (o : TokenObject).

Local Open Scope nat_scope.


End TestCallables.

(** ** The further properties on the sample objects *)

Section MoreSamples.

Import Sample TokenSample.

Local Open Scope nat_scope.

(** [ArcPT(src=P) >> T] adds [P >> T] to the store. *)
Lemma shift_extends_store_witness :
  [OArc P_open] `prefix_of` [OArc P_open; OArc P_T]
  ∧ ∃ b : Arc (),
      [OArc P_open; OArc P_T] !! 1 = Some (OArc b)
      ∧ is_completed_class (arc_class b) = true.
Proof.
  destruct (shift_extends_store Rshift 0 (VTransition T) [OArc P_open]
              (inr 1) [OArc P_open; OArc P_T])
    as (Hp & _ & Hr & _); [reflexivity|].
  destruct (Hr 1 eq_refl) as (_ & _ & b & Hb & _ & Hc).
  split; [exact Hp|]. exists b. split; [exact Hb|]. by apply Hc.
Defined.

(** [ArcPT(src=P) >> Annotate("A0") << Annotate("A1")]. *)
Lemma fragments_chain_witness :
  ∃ (r' : Ref) s' (b : Arc ()),
    shift_all 0 [(Rshift, VAnnotate (mkAnnotate "A0"));
                 (Lshift, VAnnotate (mkAnnotate "A1"))] [OArc P_open]
    = (inr r', s')
    ∧ s' !! r' = Some (OArc b)
    ∧ src b = VPlace P
    ∧ annotation b = Some "A1".
Proof.
  destruct (fragments_chain [(Rshift, VAnnotate (mkAnnotate "A0"));
                             (Lshift, VAnnotate (mkAnnotate "A1"))]
              [OArc P_open] 0 P_open)
    as (r' & s' & b & H1 & _ & H2 & _ & H3 & _ & _ & H4 & _);
    [reflexivity|split; reflexivity|by repeat constructor|].
  exists r', s', b. split; [exact H1|]. split; [exact H2|].
  split; [exact H3|exact H4].
Defined.

(** [(P >> T) >> Abstract] and [ArcPT(src=P) << None]. *)
Lemma shift_other_operand_witness :
  shift Rshift 0 (VColor Abstract) [OArc P_T] = (inl TypeError, [OArc P_T])
  ∧ shift Lshift 0 VNone [OArc P_open]
    = (inl (PetriNetArcIncomplete "Cannot << to an arc not having a dest"),
       [OArc P_open]).
Proof.
  split.
  - apply (shift_other_operand Rshift 0 P_T (VColor Abstract) [OArc P_T]);
      reflexivity.
  - apply (shift_other_operand Lshift 0 P_open VNone [OArc P_open]);
      reflexivity.
Defined.

(** [ArcPT(src=P) >> Annotate("A0") >> T] and
    [ArcPT(src=P) >> T >> Annotate("A0")]. *)
Lemma annotate_then_complete_witness :
  ∃ (r1 : Ref) s1 (c1 : Arc ()) (r2 : Ref) s2 (c2 : Arc ()),
    shift_all 0 [(Rshift, VAnnotate (mkAnnotate "A0"));
                 (Rshift, VTransition T)] [OArc P_open] = (inr r1, s1)
    ∧ s1 !! r1 = Some (OArc c1)
    ∧ shift_all 0 [(Rshift, VTransition T);
                   (Rshift, VAnnotate (mkAnnotate "A0"))] [OArc P_open]
      = (inr r2, s2)
    ∧ s2 !! r2 = Some (OArc c2)
    ∧ attrs_eq c1 c2 = true.
Proof.
  destruct (annotate_then_complete [OArc P_open] 0 P_open (mkAnnotate "A0")
              (VTransition T)) as [H _]; [reflexivity|split; reflexivity|].
  destruct H as (r1 & s1 & c1 & r2 & s2 & c2 & H1 & H2 & H3 & H4 & H5 & _);
    [reflexivity..|].
  by exists r1, s1, c1, r2, s2, c2.
Defined.

(** [P >> T] is equal to itself. *)
Lemma arc_equality_and_hash_witness :
  attrs_eq P_T P_T = true
  ∧ py_hash hash_tuple P_T = py_hash hash_tuple P_T.
Proof.
  destruct (arc_equality_and_hash hash_tuple P_T P_T P_T)
    as (Hr & _ & _ & Hh).
  destruct Hh as (_ & _ & Hh); [split; reflexivity|exact Hr|].
  split; [exact Hr|exact Hh].
Defined.

(** [(P >> T) >> TransformEach(f)], two times. *)
Lemma transform_each_twice_witness :
  ∃ (r1 : Ref) s1 (b1 : Arc ()) (r2 : Ref) s2 (b2 : Arc ()),
    TransformEach_apply_to_arc (mkTransformEach same_token) 0 [OArc P_T]
    = (inr r1, s1)
    ∧ TransformEach_apply_to_arc (mkTransformEach same_token) 0 s1
      = (inr r2, s2)
    ∧ s2 !! r1 = Some (OArc b1)
    ∧ s2 !! r2 = Some (OArc b2)
    ∧ attrs_eq b1 b2 = false
    ∧ py_set hash_tuple [b1; b2] = inr [b1; b2].
Proof.
  destruct (transform_each_twice hash_tuple [OArc P_T] 0 P_T
              (mkTransformEach same_token))
    as (r1 & s1 & b1 & r2 & s2 & b2 & H1 & H2 & H3 & H4 & _ & _ & _ & _ & _
        & _ & _ & H5 & H6); [reflexivity|split; reflexivity|].
  destruct H6 as [_ H6]; [reflexivity|].
  by exists r1, s1, b1, r2, s2, b2.
Defined.

(** [ArcPT(src=P) < (P >> T)] and [(P >> T) < ArcPT(src=P)]. *)
Lemma arc_lt_errors_witness :
  py_lt P_open P_T = inl TypeError
  ∧ py_lt P_T P_open = inl AttributeError.
Proof.
  destruct (arc_lt_errors P_open P_T) as [H1 _].
  destruct (arc_lt_errors P_T P_open) as [_ H2].
  destruct H2 as [_ H2]; [reflexivity|split; reflexivity|].
  split; [by apply H1|apply H2; by right].
Defined.

(** [P >> T], [T >> P] and [P >> T >> Annotate("A0")]. *)
Lemma arc_lt_names_only_witness :
  py_lt T_P P_T = inr false
  ∧ py_lt P_T T_P = py_lt P_T_noted T_P
  ∧ py_lt P_T P_T_noted = inr false.
Proof.
  destruct (arc_lt_names_only P_T T_P P_T_noted T_P) as (H1 & H2 & _);
    [reflexivity|reflexivity|reflexivity|reflexivity
    |split; reflexivity|split; reflexivity|split; reflexivity
    |split; reflexivity|].
  destruct (arc_lt_names_only P_T P_T_noted P_T P_T_noted) as (_ & _ & H3);
    [reflexivity|reflexivity|reflexivity|reflexivity
    |split; reflexivity|split; reflexivity|split; reflexivity
    |split; reflexivity|].
  split; [by apply H1|]. split; [by apply H2|]. by apply H3.
Defined.



(** The tokens of [{k1, k2}] visited in one order and in the reverse
    order. *)
Lemma transform_each_any_order_witness :
  TransformEach_transform elements (mkTransformEach same_token)
    {[ k1; k2 ]} ()
  = (inr (set_map (λ t : Token, t) ({[ k1; k2 ]} : TokenSet)), ())
  ∧ TransformEach_transform (λ S, reverse (elements S))
      (mkTransformEach same_token) {[ k1; k2 ]} ()
    = (inr (set_map (λ t : Token, t) ({[ k1; k2 ]} : TokenSet)), ()).
Proof.
  exact (transform_each_any_order elements (λ S, reflexivity _)
           (λ S, reverse (elements S)) (λ S, reverse_Permutation (elements S))
           (mkTransformEach same_token) (λ t, t) {[ k1; k2 ]} ()
           (λ _, eq_refl)).
Defined.




(** A coin, then a counter with [x = 0], then a counter with [x = 3]. *)
Lemma counter_x_gt_0_decides_witness :
  Figure_1_12.counter_x_gt_0 [k0; k1; k2] [coin; counter_0; counter_3]
  = (inr false, [coin; counter_0; counter_3]).
Proof.
  destruct (counter_x_gt_0_decides [k0; k1; k2] [coin; counter_0; counter_3])
    as (_ & _ & H).
  destruct (H [k0] k1 [k2]) as [H0 _].
  - reflexivity.
  - repeat constructor. by exists coin.
  - repeat constructor. intros (o & [= <-] & Hc). discriminate Hc.
  - by exists counter_0.
  - apply (H0 0%Z); [by vm_compute|done].
Defined.


End MoreSamples.
